(** * distribcalc: the prime server's compute, codec and dispatch core

    A shallow embedding of [distribcalc/tasks.py], [distribcalc/protocol.py]
    and [distribcalc/server.py], and of the command line and the listener
    of [distribcalc/client.py].

    Python integers are unbounded, so they are [Z]; [%] on a positive divisor
    and [math.isqrt] on a non-negative argument are [Z.modulo] and [Z.sqrt].
    Text is held as its UTF-8 bytes in [string], so [str.encode] and
    [bytes.decode] are the identity.  A [dict] with string keys is a
    [gmap string _]: equality of maps is Python's [==] on dicts. *)

From Stdlib Require Import ZArith Znumtheory Lia List Bool Ascii Floats.
From stdpp Require Import base option list gmap strings sorting pretty.

#[local] Set Warnings "-register-all".
Local Open Scope Z_scope.

(** ** tasks.py *)

Module Tasks.

(** The [while k <= limit] loop of [is_prime], together with the
    [return True] that follows it.  The loop state is [(k, step)]; each
    iteration consumes one unit of fuel, and [None] means the fuel ran out
    before the loop condition became false. *)
Fixpoint is_prime_loop (fuel : nat) (n limit k step : Z) : option bool :=
  if k <=? limit then
    match fuel with
    | O => None
    | S fuel' =>
        if n mod k =? 0 then Some false
        else is_prime_loop fuel' n limit (k + step) (6 - step)
    end
  else Some true.

(** [is_prime(n)].  The loop is given [isqrt(n)] units of fuel; the section
    on [is_prime] below shows that this bound is never reached. *)
Definition is_prime (n : Z) : option bool :=
  if n <? 2 then Some false
  else if (n =? 2) || (n =? 3) then Some true
  else if (n mod 2 =? 0) || (n mod 3 =? 0) then Some false
  else
    let limit := Z.sqrt n in
    is_prime_loop (Z.to_nat limit) n limit 5 2.

(** [range(start, stop)] *)
Definition range (start stop : Z) : list Z := seqZ start (stop - start).

(** The [for value in ...] loop of [primes_in_range]: [primes] is the list
    built so far, [primes.append(value)] adds at its end. *)
Fixpoint primes_loop (values primes : list Z) : option (list Z) :=
  match values with
  | [] => Some primes
  | value :: rest =>
      b ← is_prime value;
      primes_loop rest (if b : bool then primes ++ [value] else primes)
  end.

Definition primes_in_range (start end_ : Z) : option (list Z) :=
  let '(start, end_) := if start >? end_ then (end_, start) else (start, end_) in
  primes_loop (range start (end_ + 1)) [].

Definition count_primes (start end_ : Z) : option Z :=
  primes ← primes_in_range start end_;
  Some (Z.of_nat (length primes)).

End Tasks.

(** ** Exceptions *)

(** The exceptions that reach the session loop: a [ProtocolError] with its
    message, another [ValueError] with [str(exc)], or any other
    [Exception] with [repr(exc)]. *)
Inductive exn : Type :=
  | ProtocolError (msg : string)
  | PyValueError (text : string)
  | PyException (repr : string).

Inductive result (A : Type) : Type :=
  | Ok (a : A)
  | Raise (e : exn).
Arguments Ok {A} a.
Arguments Raise {A} e.

Definition raises_protocol_error {A} (r : result A) : Prop :=
  ∃ msg, r = Raise (ProtocolError msg).

(** ** Floating-point numbers

    The durations are Python [float]s.  The server only adds, subtracts,
    compares, divides and rounds them, so they are kept behind this
    interface: no property below depends on how the operations round. *)

Class PyFloat (F : Type) : Type := {
  f_zero : F;                  (* the literal 0.0 *)
  f_add : F → F → F;           (* x + y *)
  f_sub : F → F → F;           (* x - y *)
  f_div : F → F → F;           (* x / y *)
  f_gtb : F → F → bool;        (* x > y *)
  f_of_int : Z → F;            (* the int operand of a float operation *)
  f_round : F → Z → F;         (* round(x, ndigits) *)
}.

(** ** protocol.py *)

Module Protocol.

(** A value built by [json.loads]: [None], [bool], [int], [float], [str],
    [list] or [dict].  A float is an IEEE 754 binary64. *)
Inductive JSON : Type :=
  | JNull
  | JBool (b : bool)
  | JInt (z : Z)
  | JFloat (x : float)
  | JString (s : string)
  | JArray (items : list JSON)
  | JObject (fields : gmap string JSON).

(** The two functions of Python's [json] module the codec calls.
    [json_loads] gives [None] where [json.loads] raises. *)
Class JsonLib : Type := {
  json_dumps : JSON → string;
  json_loads : string → option JSON;
}.

(** What [json.loads] raises where it raises: [JSONDecodeError] for text
    that is not JSON, another [ValueError] (an integer with more digits
    than [int] converts) with [str(exc)], or an exception that is no
    [ValueError] ([RecursionError] on deep nesting) with [repr(exc)]. *)
Inductive loads_failure : Type :=
  | JSONDecodeError
  | OtherValueError (text : string)
  | OtherException (repr : string).

Class JsonFailure : Type := {
  json_loads_failure : string → loads_failure;
}.

(** [d.get(key)]: [None] when the key is missing. *)
Definition dict_get (d : gmap string JSON) (key : string) : JSON :=
  default JNull (d !! key).

Definition lower_char (c : ascii) : ascii :=
  let n := nat_of_ascii c in
  if (65 <=? n)%nat && (n <=? 90)%nat then ascii_of_nat (n + 32) else c.

(** [str.lower()] on ASCII text: the letters [A] to [Z] become [a] to
    [z]. *)
Fixpoint lower (s : string) : string :=
  match s with
  | EmptyString => EmptyString
  | String c rest => String (lower_char c) (lower rest)
  end.

Fixpoint ascii_only (s : string) : bool :=
  match s with
  | EmptyString => true
  | String c rest => (nat_of_ascii c <? 128)%nat && ascii_only rest
  end.

(** Python's [str.lower()].  It follows the Unicode case mappings, which
    are not reproduced here; on text of ASCII characters it is [lower]. *)
Class PyLower : Type := {
  str_lower : string → string;
  str_lower_ascii : ∀ s, ascii_only s = true → str_lower s = lower s;
}.

Definition newline : string := String "010" "".

Record Message : Type := {
  command : string;
  data : gmap string JSON;
}.

Section Codec.
Context `{JsonLib} `{JsonFailure} `{PyLower}.

(** The dict [Message.to_wire] serializes. *)
Definition wire_payload (m : Message) : JSON :=
  JObject {[ "command" := JString (command m); "data" := JObject (data m) ]}.

Definition to_wire (m : Message) : string :=
  json_dumps (wire_payload m) +:+ newline.

(** [Message.from_wire].  Of the exceptions of [json.loads] the [except]
    clause catches [JSONDecodeError] alone; the others leave [from_wire] as
    they are. *)
Definition from_wire (raw : string) : result Message :=
  match json_loads raw with
  | None =>
      match json_loads_failure raw with
      | JSONDecodeError => Raise (ProtocolError "payload is not valid JSON")
      | OtherValueError text => Raise (PyValueError text)
      | OtherException repr => Raise (PyException repr)
      end
  | Some (JObject loaded) =>
      match dict_get loaded "command" with
      | JString command =>
          let data := dict_get loaded "data" in
          let data := match data with JNull => JObject ∅ | _ => data end in
          match data with
          | JObject data =>
              Ok {| command := str_lower command; data := data |}
          | _ => Raise (ProtocolError "data field must be a JSON object")
          end
      | _ => Raise (ProtocolError "command field must be a string")
      end
  | Some _ => Raise (ProtocolError "payload must be a JSON object")
  end.

End Codec.
End Protocol.

(** ** server.py: ServerStats and TaskDispatcher *)

Module Server.
Section Dispatcher.
Context {F : Type} `{PyFloat F}.

Record ServerStats : Type := {
  total_requests : Z;
  prime_checks : Z;
  range_requests : Z;
  range_counts : Z;
  cumulative_duration : F;
  max_duration : F;
  active_clients : Z;
  completed_clients : Z;
  last_error : option string;
}.

(** [ServerStats()]: every field at its default. *)
Definition new_stats : ServerStats :=
  {| total_requests := 0; prime_checks := 0; range_requests := 0;
     range_counts := 0; cumulative_duration := f_zero; max_duration := f_zero;
     active_clients := 0; completed_clients := 0; last_error := None |}.

(** Field assignments [self.<field> = v]. *)
Definition set_total_requests (v : Z) (s : ServerStats) : ServerStats :=
  {| total_requests := v; prime_checks := prime_checks s;
     range_requests := range_requests s; range_counts := range_counts s;
     cumulative_duration := cumulative_duration s;
     max_duration := max_duration s; active_clients := active_clients s;
     completed_clients := completed_clients s; last_error := last_error s |}.

Definition set_prime_checks (v : Z) (s : ServerStats) : ServerStats :=
  {| total_requests := total_requests s; prime_checks := v;
     range_requests := range_requests s; range_counts := range_counts s;
     cumulative_duration := cumulative_duration s;
     max_duration := max_duration s; active_clients := active_clients s;
     completed_clients := completed_clients s; last_error := last_error s |}.

Definition set_range_requests (v : Z) (s : ServerStats) : ServerStats :=
  {| total_requests := total_requests s; prime_checks := prime_checks s;
     range_requests := v; range_counts := range_counts s;
     cumulative_duration := cumulative_duration s;
     max_duration := max_duration s; active_clients := active_clients s;
     completed_clients := completed_clients s; last_error := last_error s |}.

Definition set_range_counts (v : Z) (s : ServerStats) : ServerStats :=
  {| total_requests := total_requests s; prime_checks := prime_checks s;
     range_requests := range_requests s; range_counts := v;
     cumulative_duration := cumulative_duration s;
     max_duration := max_duration s; active_clients := active_clients s;
     completed_clients := completed_clients s; last_error := last_error s |}.

Definition set_cumulative_duration (v : F) (s : ServerStats) : ServerStats :=
  {| total_requests := total_requests s; prime_checks := prime_checks s;
     range_requests := range_requests s; range_counts := range_counts s;
     cumulative_duration := v;
     max_duration := max_duration s; active_clients := active_clients s;
     completed_clients := completed_clients s; last_error := last_error s |}.

Definition set_max_duration (v : F) (s : ServerStats) : ServerStats :=
  {| total_requests := total_requests s; prime_checks := prime_checks s;
     range_requests := range_requests s; range_counts := range_counts s;
     cumulative_duration := cumulative_duration s;
     max_duration := v; active_clients := active_clients s;
     completed_clients := completed_clients s; last_error := last_error s |}.

Definition set_active (v : Z) (s : ServerStats) : ServerStats :=
  {| total_requests := total_requests s; prime_checks := prime_checks s;
     range_requests := range_requests s; range_counts := range_counts s;
     cumulative_duration := cumulative_duration s;
     max_duration := max_duration s; active_clients := v;
     completed_clients := completed_clients s; last_error := last_error s |}.

Definition set_completed (v : Z) (s : ServerStats) : ServerStats :=
  {| total_requests := total_requests s; prime_checks := prime_checks s;
     range_requests := range_requests s; range_counts := range_counts s;
     cumulative_duration := cumulative_duration s;
     max_duration := max_duration s; active_clients := active_clients s;
     completed_clients := v; last_error := last_error s |}.

Definition set_error (v : option string) (s : ServerStats) : ServerStats :=
  {| total_requests := total_requests s; prime_checks := prime_checks s;
     range_requests := range_requests s; range_counts := range_counts s;
     cumulative_duration := cumulative_duration s;
     max_duration := max_duration s; active_clients := active_clients s;
     completed_clients := completed_clients s; last_error := v |}.

(** [ServerStats.register_duration] *)
Definition register_duration (duration : F) (s : ServerStats) : ServerStats :=
  let s := if f_gtb duration (max_duration s)
           then set_max_duration duration s else s in
  set_cumulative_duration (f_add (cumulative_duration s) duration) s.

(** [ServerStats.average_duration] (a property: computed at each read) *)
Definition average_duration (s : ServerStats) : F :=
  if total_requests s =? 0 then f_zero
  else f_div (cumulative_duration s) (f_of_int (total_requests s)).

(** The dict returned by [ServerStats.snapshot], one field per key. *)
Record Snapshot : Type := {
  snap_total_requests : Z;
  snap_prime_checks : Z;
  snap_range_requests : Z;
  snap_range_counts : Z;
  average_duration_sec : F;
  max_duration_sec : F;
  snap_active_clients : Z;
  snap_completed_clients : Z;
  snap_last_error : option string;
}.

Definition snapshot (s : ServerStats) : Snapshot :=
  {| snap_total_requests := total_requests s;
     snap_prime_checks := prime_checks s;
     snap_range_requests := range_requests s;
     snap_range_counts := range_counts s;
     average_duration_sec := f_round (average_duration s) 6;
     max_duration_sec := f_round (max_duration s) 6;
     snap_active_clients := active_clients s;
     snap_completed_clients := completed_clients s;
     snap_last_error := last_error s |}.

(** *** TaskDispatcher, one caller at a time

    The dispatcher's state is its [_stats] record.  A method is a function
    from the record before the call to the value returned and the record
    after it.  [self._executor.submit(f, x).result()] blocks until the
    worker returns [f(x)], and the two readings of [perf_counter()] around
    it are the arguments [started] and [finished]. *)

Definition _update_stats (command : string) (duration : F)
    (s : ServerStats) : ServerStats :=
  let s := set_total_requests (total_requests s + 1) s in
  let s :=
    if String.eqb command "prime" then set_prime_checks (prime_checks s + 1) s
    else if String.eqb command "range" then
      set_range_requests (range_requests s + 1) s
    else if String.eqb command "count" then
      set_range_counts (range_counts s + 1) s
    else s in
  register_duration duration s.

Definition set_active_clients (value : Z) (s : ServerStats) : ServerStats :=
  set_active value s.

Definition increment_completed_clients (s : ServerStats) : ServerStats :=
  set_completed (completed_clients s + 1) s.

Definition set_last_error (error : string) (s : ServerStats) : ServerStats :=
  set_error (Some error) s.

Definition stats (s : ServerStats) : Snapshot * ServerStats :=
  (snapshot s, s).

Record PrimePayload : Type := {
  pp_number : Z;
  pp_is_prime : bool;
}.

Record RangePayload : Type := {
  rp_start : Z;
  rp_end : Z;
  rp_count : Z;
  rp_primes : list Z;
  rp_truncated : bool;
  rp_duration_sec : F;
}.

Record CountPayload : Type := {
  cp_start : Z;
  cp_end : Z;
  cp_count : Z;
  cp_duration_sec : F;
}.

Definition execute_prime (started finished : F) (number : Z)
    (s : ServerStats) : option (PrimePayload * ServerStats) :=
  result ← Tasks.is_prime number;
  let s := _update_stats "prime" (f_sub finished started) s in
  Some ({| pp_number := number; pp_is_prime := result |}, s).

Definition execute_range (started finished : F) (start end_ : Z)
    (s : ServerStats) : option (RangePayload * ServerStats) :=
  primes ← Tasks.primes_in_range start end_;
  let duration := f_sub finished started in
  let s := _update_stats "range" duration s in
  let len := Z.of_nat (length primes) in
  Some ({| rp_start := start;
           rp_end := end_;
           rp_count := len;
           rp_primes := if len <=? 200 then primes else take 200 primes;
           rp_truncated := len >? 200;
           rp_duration_sec := f_round duration 6 |}, s).

Definition execute_count (started finished : F) (start end_ : Z)
    (s : ServerStats) : option (CountPayload * ServerStats) :=
  count ← Tasks.count_primes start end_;
  let duration := f_sub finished started in
  let s := _update_stats "count" duration s in
  Some ({| cp_start := start; cp_end := end_; cp_count := count;
           cp_duration_sec := f_round duration 6 |}, s).

(** A call of one of the four dispatcher operations, with the clock
    readings taken around the worker's computation. *)
Inductive call : Type :=
  | CallPrime (started finished : F) (number : Z)
  | CallRange (started finished : F) (start end_ : Z)
  | CallCount (started finished : F) (start end_ : Z)
  | CallStats.

Inductive reply : Type :=
  | ReplyPrime (p : PrimePayload)
  | ReplyRange (p : RangePayload)
  | ReplyCount (p : CountPayload)
  | ReplyStats (p : Snapshot).

Definition perform (c : call) (s : ServerStats) : option (reply * ServerStats) :=
  match c with
  | CallPrime started finished number =>
      prod_map ReplyPrime id <$> execute_prime started finished number s
  | CallRange started finished start end_ =>
      prod_map ReplyRange id <$> execute_range started finished start end_ s
  | CallCount started finished start end_ =>
      prod_map ReplyCount id <$> execute_count started finished start end_ s
  | CallStats => Some (prod_map ReplyStats id (stats s))
  end.

(** The record after each call of a sequence, oldest first. *)
Fixpoint perform_all (calls : list call) (s : ServerStats)
    : option (list ServerStats) :=
  match calls with
  | [] => Some []
  | c :: rest =>
      '(_, s') ← perform c s;
      states ← perform_all rest s';
      Some (s' :: states)
  end.

End Dispatcher.
Arguments ServerStats F : clear implicits.
Arguments Snapshot F : clear implicits.
Arguments RangePayload F : clear implicits.
Arguments CountPayload F : clear implicits.
Arguments call F : clear implicits.
Arguments reply F : clear implicits.

(** *** Module-level helper *)

(** [isinstance(value, int)]: [bool] is a subclass of [int] in Python, so
    [True] and [False] are instances of [int] as well. *)
Definition isinstance_int (value : Protocol.JSON) : bool :=
  match value with
  | Protocol.JInt _ | Protocol.JBool _ => true
  | _ => false
  end.

Definition _require_int (data : gmap string Protocol.JSON) (key : string)
    : result Protocol.JSON :=
  let value := Protocol.dict_get data key in
  if negb (isinstance_int value) then
    Raise (ProtocolError ("field '" +:+ key +:+ "' must be an integer"))
  else Ok value.

(** *** DistributedPrimeServer: the client counter

    [_register_client] is the only code that touches [_client_counter];
    [_handle_client] calls it with [+1] on entry, where the value returned
    becomes the session's [client_id], and with [-1] on exit. *)
Section Sessions.
Context {F : Type} `{PyFloat F}.

Record DistributedPrimeServer : Type := {
  _dispatcher : ServerStats F;
  _client_counter : Z;
}.

Definition new_server : DistributedPrimeServer :=
  {| _dispatcher := new_stats; _client_counter := 0 |}.

Definition _register_client (delta : Z) (srv : DistributedPrimeServer)
    : Z * DistributedPrimeServer :=
  let counter := _client_counter srv + delta in
  let current := counter in
  (current,
   {| _dispatcher := set_active_clients current (_dispatcher srv);
      _client_counter := counter |}).

(** The first statement of [_handle_client]: the session's id. *)
Definition session_enter (srv : DistributedPrimeServer)
    : Z * DistributedPrimeServer :=
  _register_client 1 srv.

(** The statements of [_handle_client] after the [with client_socket]
    block. *)
Definition session_exit (srv : DistributedPrimeServer)
    : DistributedPrimeServer :=
  let srv := {| _dispatcher := increment_completed_clients (_dispatcher srv);
                _client_counter := _client_counter srv |} in
  snd (_register_client (-1) srv).

Inductive session_event : Type :=
  | SessionStart
  | SessionEnd.

(** The client ids handed out along a sequence of session starts and ends,
    in the order of the starts. *)
Fixpoint client_ids (events : list session_event)
    (srv : DistributedPrimeServer) : list Z :=
  match events with
  | [] => []
  | SessionStart :: rest =>
      let '(client_id, srv) := session_enter srv in
      client_id :: client_ids rest srv
  | SessionEnd :: rest => client_ids rest (session_exit srv)
  end.

End Sessions.
Arguments DistributedPrimeServer F : clear implicits.

(** *** TaskDispatcher under concurrent callers

    Session threads call the dispatcher's methods concurrently.  Each
    method that touches [_stats] does so inside [with self._stats_lock];
    the statements of that block run one at a time, and another thread may
    run between any two of them. *)
Section Concurrent.
Context {F : Type} `{PyFloat F}.

(** A call, by a session thread, of a method that takes [_stats_lock]. *)
Inductive stats_op : Type :=
  | OpUpdate (command : string) (duration : F)
  | OpSetActive (value : Z)
  | OpIncCompleted
  | OpSetLastError (error : string)
  | OpStats.

(** What the call does when nothing interrupts it. *)
Definition apply_op (o : stats_op) (s : ServerStats F) : ServerStats F :=
  match o with
  | OpUpdate command duration => _update_stats command duration s
  | OpSetActive value => set_active_clients value s
  | OpIncCompleted => increment_completed_clients s
  | OpSetLastError error => set_last_error error s
  | OpStats => snd (stats s)
  end.

Definition apply_ops (ops : list stats_op) (s : ServerStats F)
    : ServerStats F :=
  foldl (λ s o, apply_op o s) s ops.

(** One statement of a [with self._stats_lock] block. *)
Inductive stmt : Type :=
  | Assign (f : ServerStats F → ServerStats F)
  | ReturnSnapshot.

(** The statements of each method's block, in program order. *)
Definition body (o : stats_op) : list stmt :=
  match o with
  | OpUpdate command duration =>
      [ Assign (λ s, set_total_requests (total_requests s + 1) s);
        Assign (λ s,
          if String.eqb command "prime" then
            set_prime_checks (prime_checks s + 1) s
          else if String.eqb command "range" then
            set_range_requests (range_requests s + 1) s
          else if String.eqb command "count" then
            set_range_counts (range_counts s + 1) s
          else s);
        Assign (λ s,
          if f_gtb duration (max_duration s)
          then set_max_duration duration s else s);
        Assign (λ s,
          set_cumulative_duration (f_add (cumulative_duration s) duration) s) ]
  | OpSetActive value => [ Assign (set_active value) ]
  | OpIncCompleted =>
      [ Assign (λ s, set_completed (completed_clients s + 1) s) ]
  | OpSetLastError error => [ Assign (set_error (Some error)) ]
  | OpStats => [ ReturnSnapshot ]
  end.

Definition run_stmt (st : stmt) (s : ServerStats F) : ServerStats F :=
  match st with
  | Assign f => f s
  | ReturnSnapshot => s
  end.

Definition run_stmts (sts : list stmt) (s : ServerStats F) : ServerStats F :=
  foldl (λ s st, run_stmt st s) s sts.

(** A session thread: the calls it still has to make, and, while it is
    inside a [with] block, the call it is executing with the statements of
    the block it has not run yet. *)
Record thread : Type := {
  pending : list stats_op;
  in_block : option (stats_op * list stmt);
}.

(** The dispatcher and its callers.  [completed] and [observed] are history
    variables: the calls that have left their [with] block, oldest first,
    and the snapshots that calls of [stats] have returned. *)
Record system : Type := {
  shared : ServerStats F;
  locked : bool;
  threads : list thread;
  completed : list stats_op;
  observed : list (Snapshot F);
}.

Definition initial (programs : list (list stats_op)) : system :=
  {| shared := new_stats; locked := false;
     threads := (λ p, {| pending := p; in_block := None |}) <$> programs;
     completed := []; observed := [] |}.

(** One step of thread [t]; [None] when it cannot run: it has finished, or
    it waits for the lock. *)
Definition step (t : nat) (sys : system) : option system :=
  th ← threads sys !! t;
  match in_block th with
  | None =>
      match pending th with
      | [] => None
      | o :: rest =>
          if locked sys then None
          else Some
            {| shared := shared sys; locked := true;
               threads :=
                 <[t := {| pending := rest; in_block := Some (o, body o) |}]>
                   (threads sys);
               completed := completed sys; observed := observed sys |}
      end
  | Some (o, []) =>
      Some {| shared := shared sys; locked := false;
              threads :=
                <[t := {| pending := pending th; in_block := None |}]>
                  (threads sys);
              completed := completed sys ++ [o]; observed := observed sys |}
  | Some (o, st :: sts) =>
      Some {| shared := run_stmt st (shared sys); locked := locked sys;
              threads :=
                <[t := {| pending := pending th; in_block := Some (o, sts) |}]>
                  (threads sys);
              completed := completed sys;
              observed :=
                match st with
                | ReturnSnapshot => observed sys ++ [snapshot (shared sys)]
                | Assign _ => observed sys
                end |}
  end.

(** The system after the scheduler has run the threads named by
    [schedule], one step each, in that order. *)
Fixpoint run (schedule : list nat) (sys : system) : option system :=
  match schedule with
  | [] => Some sys
  | t :: rest => sys' ← step t sys; run rest sys'
  end.

End Concurrent.
Arguments stats_op F : clear implicits.
Arguments stmt F : clear implicits.
Arguments thread F : clear implicits.
Arguments system F : clear implicits.
End Server.

(** ** CPython's float and json, to run the definitions on examples *)

(** Python's [float] on CPython: IEEE 754 binary64, which is Rocq's
    primitive [float] with the same rounding (to nearest, ties to even). *)
Module Binary64.

(** [float(z)]: the binary64 nearest to [z]. *)
Definition float_of_Z (z : Z) : float :=
  SF2Prim (binary_normalize prec emax z 0 false).

(** The integer nearest to [p / q], ties to even, for [0 < q]. *)
Definition nearest_even (p q : Z) : Z :=
  let f := p / q in
  let r := 2 * (p mod q) in
  if r <? q then f
  else if q <? r then f + 1
  else if Z.even f then f else f + 1.

(** [round(x, ndigits)] for [0 <= ndigits <= 22]: the decimal with
    [ndigits] digits after the point nearest to the exact value of [x]
    (ties to even), then the binary64 nearest to that decimal.  With [n]
    the digits of the decimal, that is [n / 10 ^ ndigits] in binary64 when
    [n < 2 ^ 53], both being exact there, and [x] itself from there on,
    where neighbouring floats are at least [10 ^ - ndigits] apart. *)
Definition float_round (x : float) (ndigits : Z) : float :=
  match Prim2SF x with
  | S754_finite sign m e =>
      let scale := 10 ^ ndigits in
      let '(p, q) := if 0 <=? e then (Z.pos m * 2 ^ e * scale, 1)
                     else (Z.pos m * scale, 2 ^ (- e)) in
      let n := nearest_even p q in
      if n <? 2 ^ 53 then
        let r := PrimFloat.div (float_of_Z n) (float_of_Z scale) in
        if sign then PrimFloat.opp r else r
      else x
  | _ => x
  end.

#[export] Instance binary64 : PyFloat float := {
  f_zero := 0%float;
  f_add := PrimFloat.add;
  f_sub := PrimFloat.sub;
  f_div := PrimFloat.div;
  f_gtb x y := PrimFloat.ltb y x;
  f_of_int := float_of_Z;
  f_round := float_round;
}.

End Binary64.

(** A reader and writer for JSON text, standing in for Python's [json]
    module where an example needs a [JsonLib] that runs.  It covers
    white space, [null], [true], [false], integers, floats, strings with
    their escapes, arrays and objects, and the tokens [NaN], [Infinity] and
    [-Infinity] that Python reads and writes.  A repeated key keeps its last
    value, as in Python.  Unlike Python's writer it copies non-ASCII bytes
    as they are and writes a float by its exact decimal value; both read
    back to the same value.  It comes with a [str.lower] for ASCII
    text. *)
Module MiniJson.
Import Protocol.

Definition dquote : ascii := "034".
Definition backslash : ascii := "092".

Definition is_space (c : ascii) : bool :=
  let n := nat_of_ascii c in
  (n =? 32)%nat || (n =? 9)%nat || (n =? 10)%nat || (n =? 13)%nat.

Fixpoint skip_ws (s : string) : string :=
  match s with
  | String c rest => if is_space c then skip_ws rest else s
  | EmptyString => s
  end.

Fixpoint strip_prefix (p s : string) : option string :=
  match p, s with
  | EmptyString, _ => Some s
  | String a p', String b s' =>
      if Ascii.eqb a b then strip_prefix p' s' else None
  | _, _ => None
  end.

Definition digit (c : ascii) : option Z :=
  let n := nat_of_ascii c in
  if (48 <=? n)%nat && (n <=? 57)%nat then Some (Z.of_nat n - 48) else None.

Definition hex_digit (c : ascii) : option Z :=
  let n := Z.of_nat (nat_of_ascii c) in
  if (48 <=? n) && (n <=? 57) then Some (n - 48)
  else if (65 <=? n) && (n <=? 70) then Some (n - 55)
  else if (97 <=? n) && (n <=? 102) then Some (n - 87)
  else None.

Definition byte (n : Z) : string :=
  String (ascii_of_nat (Z.to_nat n)) EmptyString.

(** The UTF-8 bytes of a code point. *)
Definition utf8 (cp : Z) : string :=
  if cp <? 128 then byte cp
  else if cp <? 2048 then byte (192 + cp / 64) +:+ byte (128 + cp mod 64)
  else if cp <? 65536 then
    byte (224 + cp / 4096) +:+ byte (128 + cp / 64 mod 64)
    +:+ byte (128 + cp mod 64)
  else
    byte (240 + cp / 262144) +:+ byte (128 + cp / 4096 mod 64)
    +:+ byte (128 + cp / 64 mod 64) +:+ byte (128 + cp mod 64).

Definition hex4 (a b c d : ascii) : option Z :=
  x ← hex_digit a; y ← hex_digit b; z ← hex_digit c; w ← hex_digit d;
  Some (((x * 16 + y) * 16 + z) * 16 + w).

(** The characters of a string literal after its opening quote, and the
    text after its closing quote. *)
Fixpoint read_string (s : string) : option (string * string) :=
  match s with
  | EmptyString => None
  | String c rest =>
      if Ascii.eqb c dquote then Some (EmptyString, rest)
      else if Ascii.eqb c backslash then
        match rest with
        | String "u" (String h1 (String h2 (String h3 (String h4 rest')))) =>
            hi ← hex4 h1 h2 h3 h4;
            if (55296 <=? hi) && (hi <=? 56319) then
              match rest' with
              | String b (String "u" (String l1 (String l2 (String l3
                  (String l4 rest''))))) =>
                  lo ← hex4 l1 l2 l3 l4;
                  if Ascii.eqb b backslash && (56320 <=? lo) && (lo <=? 57343)
                  then
                    '(str, after) ← read_string rest'';
                    Some (utf8 (65536 + (hi - 55296) * 1024 + (lo - 56320))
                          +:+ str, after)
                  else None
              | _ => None
              end
            else if (56320 <=? hi) && (hi <=? 57343) then None
            else '(str, after) ← read_string rest'; Some (utf8 hi +:+ str, after)
        | String e rest' =>
            ch ← (if Ascii.eqb e dquote then Some dquote
                  else if Ascii.eqb e backslash then Some backslash
                  else match e with
                       | "/" => Some "/"
                       | "b" => Some "008"
                       | "f" => Some "012"
                       | "n" => Some "010"
                       | "r" => Some "013"
                       | "t" => Some "009"
                       | _ => None
                       end)%char;
            '(str, after) ← read_string rest';
            Some (String ch str, after)
        | EmptyString => None
        end
      else if (nat_of_ascii c <? 32)%nat then None
      else '(str, after) ← read_string rest; Some (String c str, after)
  end.

(** The digits at the head of [s]: their value after [acc], how many there
    are, and the text after them. *)
Fixpoint read_digits (s : string) (acc : Z) (count : Z) : Z * Z * string :=
  match s with
  | String c rest =>
      match digit c with
      | Some d => read_digits rest (acc * 10 + d) (count + 1)
      | None => (acc, count, s)
      end
  | EmptyString => (acc, count, s)
  end.

(** The binary64 nearest to [p / q], for [0 <= p] and [0 < q]: the quotient
    to at least 64 bits, with one more bit that records a remainder. *)
Definition float_of_ratio (p q : Z) : float :=
  if p =? 0 then 0%float
  else
    let k := Z.max 0 (Z.log2 q + 64 - Z.log2 p) in
    let num := p * 2 ^ k in
    let sticky := if num mod q =? 0 then 0 else 1 in
    SF2Prim (binary_normalize prec emax (2 * (num / q) + sticky) (- k - 1) false).

(** A number: [-? int frac? exp?], an [int] when it has neither fraction
    nor exponent and a [float] otherwise. *)
Definition read_number (s : string) : option (JSON * string) :=
  let '(negative, s) :=
    match s with String "-" rest => (true, rest) | _ => (false, s) end in
  let '(int_part, int_count, rest) := read_digits s 0 0 in
  if (int_count =? 0)
     || (1 <? int_count) && bool_decide (strip_prefix "0" s ≠ None)
  then None
  else
    let '(mantissa, frac_count, rest, has_frac) :=
      match rest with
      | String "." rest' =>
          let '(m, c, rest'') := read_digits rest' int_part 0 in
          (m, c, rest'', true)
      | _ => (int_part, 0, rest, false)
      end in
    if has_frac && (frac_count =? 0) then None
    else
      let exponent :=
        match rest with
        | String e rest' =>
            if Ascii.eqb e "e" || Ascii.eqb e "E" then
              let '(minus, rest'') :=
                match rest' with
                | String "-" r => (true, r)
                | String "+" r => (false, r)
                | _ => (false, rest')
                end in
              let '(ex, c, after) := read_digits rest'' 0 0 in
              if c =? 0 then None
              else Some (Some (if minus : bool then - ex else ex), after)
            else Some (None, rest)
        | EmptyString => Some (None, rest)
        end in
      '(ex, after) ← exponent;
      if negb has_frac && bool_decide (ex = None) then
        Some (JInt (if negative then - int_part else int_part), after)
      else
        let e10 := default 0 ex - frac_count in
        let x := if 0 <=? e10 then float_of_ratio (mantissa * 10 ^ e10) 1
                 else float_of_ratio mantissa (10 ^ (- e10)) in
        Some (JFloat (if negative then PrimFloat.opp x else x), after).

(** The values that are neither strings, arrays nor objects. *)
Definition read_atom (s : string) : option (JSON * string) :=
  match strip_prefix "null" s with Some rest => Some (JNull, rest) | None =>
  match strip_prefix "true" s with Some rest => Some (JBool true, rest) | None =>
  match strip_prefix "false" s with Some rest => Some (JBool false, rest) | None =>
  match strip_prefix "NaN" s with Some rest => Some (JFloat nan, rest) | None =>
  match strip_prefix "Infinity" s with
  | Some rest => Some (JFloat infinity, rest) | None =>
  match strip_prefix "-Infinity" s with
  | Some rest => Some (JFloat neg_infinity, rest) | None =>
  read_number s
  end end end end end end.

Fixpoint read_value (fuel : nat) (s : string) : option (JSON * string) :=
  match fuel with
  | O => None
  | S fuel =>
      match skip_ws s with
      | String "[" rest =>
          match skip_ws rest with
          | String "]" after => Some (JArray [], after)
          | rest => read_items fuel rest []
          end
      | String "{" rest =>
          match skip_ws rest with
          | String "}" after => Some (JObject ∅, after)
          | rest => read_members fuel rest ∅
          end
      | String c rest =>
          if Ascii.eqb c dquote then
            '(str, after) ← read_string rest; Some (JString str, after)
          else read_atom (String c rest)
      | EmptyString => None
      end
  end
with read_items (fuel : nat) (s : string) (items : list JSON)
    : option (JSON * string) :=
  match fuel with
  | O => None
  | S fuel =>
      '(v, rest) ← read_value fuel s;
      match skip_ws rest with
      | String "," after => read_items fuel after (items ++ [v])
      | String "]" after => Some (JArray (items ++ [v]), after)
      | _ => None
      end
  end
with read_members (fuel : nat) (s : string) (fields : gmap string JSON)
    : option (JSON * string) :=
  match fuel with
  | O => None
  | S fuel =>
      match skip_ws s with
      | String c rest =>
          if Ascii.eqb c dquote then
            '(key, rest) ← read_string rest;
            match skip_ws rest with
            | String ":" rest =>
                '(v, rest) ← read_value fuel rest;
                match skip_ws rest with
                | String "," after => read_members fuel after (<[key := v]> fields)
                | String "}" after => Some (JObject (<[key := v]> fields), after)
                | _ => None
                end
            | _ => None
            end
          else None
      | EmptyString => None
      end
  end.

Definition loads (s : string) : option JSON :=
  '(v, rest) ← read_value (2 * String.length s + 2) s;
  match skip_ws rest with
  | EmptyString => Some v
  | _ => None
  end.

Definition hex_char (n : Z) : string :=
  byte (if n <? 10 then 48 + n else 87 + n).

Fixpoint escape (s : string) : string :=
  match s with
  | EmptyString => EmptyString
  | String c rest =>
      let n := Z.of_nat (nat_of_ascii c) in
      (if Ascii.eqb c dquote then String backslash (String dquote EmptyString)
       else if Ascii.eqb c backslash then
         String backslash (String backslash EmptyString)
       else if n =? 10 then String backslash "n"
       else if n =? 13 then String backslash "r"
       else if n =? 9 then String backslash "t"
       else if n =? 8 then String backslash "b"
       else if n =? 12 then String backslash "f"
       else if n <? 32 then
         String backslash "u00" +:+ hex_char (n / 16) +:+ hex_char (n mod 16)
       else String c EmptyString) +:+ escape rest
  end.

Definition quoted (s : string) : string :=
  String dquote (escape s) +:+ String dquote EmptyString.

Fixpoint join (sep : string) (parts : list string) : string :=
  match parts with
  | [] => EmptyString
  | [p] => p
  | p :: rest => p +:+ sep +:+ join sep rest
  end.

(** [m * 2 ^ e] with the factors of two moved from [m] into the exponent. *)
Fixpoint odd_part (m : positive) (e : Z) : positive * Z :=
  match m with
  | xO m' => odd_part m' (e + 1)
  | _ => (m, e)
  end.

Definition write_float (x : float) : string :=
  match Prim2SF x with
  | S754_zero sign => if sign then "-0.0" else "0.0"
  | S754_infinity sign => if sign then "-Infinity" else "Infinity"
  | S754_nan => "NaN"
  | S754_finite sign m e =>
      let '(m, e) := odd_part m e in
      (if sign then "-" else "") +:+
      (if 0 <=? e then pretty (Z.pos m * 2 ^ e) +:+ ".0"
       else pretty (Z.pos m * 5 ^ (- e)) +:+ "e" +:+ pretty e)
  end.

Fixpoint dumps (v : JSON) : string :=
  match v with
  | JNull => "null"
  | JBool b => if b then "true" else "false"
  | JInt z => pretty z
  | JFloat x => write_float x
  | JString s => quoted s
  | JArray items => "[" +:+ join ", " (dumps <$> items) +:+ "]"
  | JObject fields =>
      "{" +:+
      join ", "
        (map_fold (λ key v' parts, parts ++ [quoted key +:+ ": " +:+ dumps v'])
           [] fields)
      +:+ "}"
  end.

#[export] Instance lib : JsonLib := {
  json_dumps := dumps;
  json_loads := loads;
}.

(** The reader fails in one way only, on text it does not take as JSON. *)
#[export] Instance failure : JsonFailure := {
  json_loads_failure _ := JSONDecodeError;
}.

(** [str.lower] for commands of ASCII text. *)
#[export] Instance ascii_lower : PyLower := {
  str_lower := lower;
  str_lower_ascii _ _ := eq_refl;
}.

(** Text written with apostrophes in place of double quotes. *)
Fixpoint dq (s : string) : string :=
  match s with
  | EmptyString => EmptyString
  | String c rest => String (if Ascii.eqb c "'" then dquote else c) (dq rest)
  end.

End MiniJson.

(** * What the properties are stated with *)

(** ** tasks.py *)

(** The loop's invariant on [(k, step)]: [k] runs through the numbers
    congruent to 5 and 1 modulo 6, and [step] is the gap to the next. *)
Definition wheel (k step : Z) : Prop :=
  step = 2 ∧ k mod 6 = 5 ∨ step = 4 ∧ k mod 6 = 1.

(** The candidates the loop tries: the numbers of the form 6j-1 and 6j+1. *)
Definition candidate (d : Z) : Prop := d mod 6 = 1 ∨ d mod 6 = 5.

(** Primality is decidable, so a list can be filtered by it. *)
#[local] Instance prime_decision (n : Z) : Decision (Z.prime n).
Proof.
  destruct (prime_dec n) as [Hp|Hp]; [left|right]; by rewrite prime_alt.
Defined.

(** ** server.py: the request counters *)

Section Counters.
Context {F : Type} `{PyFloat F}.
Import Server.

(** The request counters add up. *)
Definition counters_agree (s : ServerStats F) : Prop :=
  total_requests s = prime_checks s + range_requests s + range_counts s.

(** How a call moves the four request counters. *)
Definition counters_step (c : call F) (s s' : ServerStats F) : Prop :=
  match c with
  | CallPrime _ _ _ =>
      total_requests s' = total_requests s + 1
      ∧ prime_checks s' = prime_checks s + 1
      ∧ range_requests s' = range_requests s
      ∧ range_counts s' = range_counts s
  | CallRange _ _ _ _ =>
      total_requests s' = total_requests s + 1
      ∧ prime_checks s' = prime_checks s
      ∧ range_requests s' = range_requests s + 1
      ∧ range_counts s' = range_counts s
  | CallCount _ _ _ _ =>
      total_requests s' = total_requests s + 1
      ∧ prime_checks s' = prime_checks s
      ∧ range_requests s' = range_requests s
      ∧ range_counts s' = range_counts s + 1
  | CallStats => s' = s
  end.

End Counters.

(** ** protocol.py: the lines that do not decode *)

Section Lines.
Context `{Protocol.JsonLib} `{Protocol.JsonFailure}.
Import Protocol.






End Lines.

Section Lines_examples.
Import Protocol.



End Lines_examples.

(** ** server.py: the lock *)

Section Lock.
Context {F : Type} `{PyFloat F}.
Import Server.

(** A snapshot of the record as it stood after some of the completed
    calls, each of them whole. *)
Definition whole_state (done : list (stats_op F)) (snap : Snapshot F) : Prop :=
  ∃ before, before `prefix_of` done
    ∧ snap = snapshot (apply_ops before new_stats).

Definition outside (th : thread F) : Prop := in_block th = None.

(** The invariant of the lock.  While the lock is free every thread is
    outside its block and the record is the result of the completed calls.
    While it is held exactly one thread is inside a block, and the record
    is the result of the completed calls followed by the statements that
    thread has run so far. *)
Definition consistent (sys : system F) : Prop :=
  Forall (whole_state (completed sys)) (observed sys)
  ∧ if locked sys then
      ∃ t th o pre sts,
        threads sys !! t = Some th
        ∧ in_block th = Some (o, sts)
        ∧ body o = pre ++ sts
        ∧ shared sys = run_stmts pre (apply_ops (completed sys) new_stats)
        ∧ ∀ t' th', t' ≠ t → threads sys !! t' = Some th' → outside th'
    else
      shared sys = apply_ops (completed sys) new_stats
      ∧ ∀ t th, threads sys !! t = Some th → outside th.

(** Every call in the system was taken from a session's program. *)
Definition from_programs (programs : list (list (stats_op F)))
    (sys : system F) : Prop :=
  (∀ o, o ∈ completed sys → ∃ p, p ∈ programs ∧ o ∈ p)
  ∧ ∀ t th, threads sys !! t = Some th →
      (∀ o, o ∈ pending th → ∃ p, p ∈ programs ∧ o ∈ p)
      ∧ ∀ o sts, in_block th = Some (o, sts) → ∃ p, p ∈ programs ∧ o ∈ p.

End Lock.

Section Lock_examples.
Import Server Binary64.

(** One session asks for a primality test and then for the statistics;
    the other asks for a range and then sends an unknown command. *)
Definition two_sessions : list (list (stats_op float)) :=
  [ [ OpUpdate "prime" 0.5%float; OpStats ];
    [ OpUpdate "range" 0.25%float; OpSetLastError "unknown command: bogus" ] ].

(** Each [_update_stats] takes six steps (the lock, four statements, the
    release), each of the other calls three. *)
Definition two_sessions_schedule : list nat :=
  [ 0; 0; 0; 0; 0; 0; 1; 1; 1; 1; 1; 1; 0; 0; 0; 1; 1; 1 ]%nat.

End Lock_examples.

(** * The rest of the request path *)

(** ** protocol.py: responses *)

Module Responses.
Import Protocol.
Section Encode.
Context `{JsonLib}.

(** The dict [encode_response] serializes. *)
Definition response_object (payload : gmap string JSON) (status : string)
    : JSON :=
  JObject {[ "status" := JString status; "payload" := JObject payload ]}.

(** [encode_response(payload, status=status)] *)
Definition encode_response (payload : gmap string JSON) (status : string)
    : string :=
  json_dumps (response_object payload status) +:+ newline.

Definition encode_error (message : string) : string :=
  encode_response {[ "error" := JString message ]} "error".

End Encode.
End Responses.

(** ** Builtins on text

    The functions of Python's [str], [bytes] and [int] the server's session
    loop and the client's command line call. *)
Class PyText : Type := {
  (* raw.decode("utf-8"): the text, or the message of the UnicodeDecodeError *)
  bytes_decode : string → string + string;
  (* text.strip() *)
  str_strip : string → string;
  (* text.split() *)
  str_split : string → list string;
  (* int(text): the integer, or the message of the ValueError *)
  int_of_str : string → Z + string;
}.

(** ** server.py: _dispatch_command and the body of the session loop *)

Module Handler.
Import Protocol Server Responses.

(** The integer a value that passed [isinstance(value, int)] is in
    comparisons and arithmetic: itself, or 1 and 0 for [True] and [False].
    Other values have none. *)
Definition int_value (v : JSON) : option Z :=
  match v with
  | JInt z => Some z
  | JBool b => Some (if b then 1 else 0)
  | _ => None
  end.

Section Dispatch.
Context `{PyFloat float}.

(** The dicts the dispatcher's methods return.  [number], [start] and
    [end] are the objects the method was called with. *)
Definition prime_dict (number : JSON) (p : PrimePayload) : gmap string JSON :=
  {[ "number" := number; "is_prime" := JBool (pp_is_prime p) ]}.

Definition range_dict (start end_ : JSON) (p : RangePayload float)
    : gmap string JSON :=
  {[ "start" := start;
     "end" := end_;
     "count" := JInt (rp_count p);
     "primes" := JArray (JInt <$> rp_primes p);
     "truncated" := JBool (rp_truncated p);
     "duration_sec" := JFloat (rp_duration_sec p) ]}.

Definition count_dict (start end_ : JSON) (p : CountPayload float)
    : gmap string JSON :=
  {[ "start" := start;
     "end" := end_;
     "count" := JInt (cp_count p);
     "duration_sec" := JFloat (cp_duration_sec p) ]}.

Definition snapshot_dict (p : Snapshot float) : gmap string JSON :=
  {[ "total_requests" := JInt (snap_total_requests p);
     "prime_checks" := JInt (snap_prime_checks p);
     "range_requests" := JInt (snap_range_requests p);
     "range_counts" := JInt (snap_range_counts p);
     "average_duration_sec" := JFloat (average_duration_sec p);
     "max_duration_sec" := JFloat (max_duration_sec p);
     "active_clients" := JInt (snap_active_clients p);
     "completed_clients" := JInt (snap_completed_clients p);
     "last_error" := from_option JString JNull (snap_last_error p) ]}.

(** [DistributedPrimeServer._dispatch_command], on the dispatcher's
    record.  [started] and [finished] are the clock readings of the
    dispatcher method it calls.  The result is the dict returned or the
    exception raised, with the record as the call left it. *)
Definition _dispatch_command (started finished : float) (message : Message)
    (s : ServerStats float)
    : option (result (gmap string JSON) * ServerStats float) :=
  let command := command message in
  let data := data message in
  if String.eqb command "prime" then
    match _require_int data "number" with
    | Raise e => Some (Raise e, s)
    | Ok number =>
        n ← int_value number;
        '(p, s) ← execute_prime started finished n s;
        Some (Ok (prime_dict number p), s)
    end
  else if String.eqb command "range" then
    match _require_int data "start" with
    | Raise e => Some (Raise e, s)
    | Ok start =>
        match _require_int data "end" with
        | Raise e => Some (Raise e, s)
        | Ok end_ =>
            a ← int_value start;
            b ← int_value end_;
            '(p, s) ← execute_range started finished a b s;
            Some (Ok (range_dict start end_ p), s)
        end
    end
  else if String.eqb command "count" then
    match _require_int data "start" with
    | Raise e => Some (Raise e, s)
    | Ok start =>
        match _require_int data "end" with
        | Raise e => Some (Raise e, s)
        | Ok end_ =>
            a ← int_value start;
            b ← int_value end_;
            '(p, s) ← execute_count started finished a b s;
            Some (Ok (count_dict start end_ p), s)
        end
    end
  else if String.eqb command "stats" then
    let '(p, s) := stats s in
    Some (Ok (snapshot_dict p), s)
  else Some (Raise (ProtocolError ("unknown command: " +:+ command)), s).

End Dispatch.

Section Loop.
Context `{PyFloat float} `{JsonLib} `{JsonFailure} `{PyLower} `{PyText}.

(** The [except (ProtocolError, ValueError)] branch: [text] is
    [str(exc)]. *)
Definition answer_error (text : string) (s : ServerStats float)
    : string * ServerStats float :=
  (encode_error text, set_last_error text s).

(** The [except Exception] branch: [repr] is [repr(exc)]. *)
Definition answer_unexpected (repr : string) (s : ServerStats float)
    : string * ServerStats float :=
  (encode_error "internal server error", set_last_error repr s).

(** The two [except] clauses of the loop, tried in their order. *)
Definition answer_exception (e : exn) (s : ServerStats float)
    : string * ServerStats float :=
  match e with
  | ProtocolError text | PyValueError text => answer_error text s
  | PyException repr => answer_unexpected repr s
  end.

(** One iteration of the loop of [_handle_client] on a line that was
    read: the bytes written to the connection and the record afterwards.
    A line that does not decode raises [UnicodeDecodeError], which is a
    [ValueError]. *)
Definition serve_line (started finished : float) (raw : string)
    (s : ServerStats float) : option (string * ServerStats float) :=
  match bytes_decode raw with
  | inr text => Some (answer_exception (PyValueError text) s)
  | inl line =>
      match from_wire (str_strip line) with
      | Raise e => Some (answer_exception e s)
      | Ok message =>
          '(r, s) ← _dispatch_command started finished message s;
          match r with
          | Ok response_payload => Some (encode_response response_payload "ok", s)
          | Raise e => Some (answer_exception e s)
          end
      end
  end.

(** The lines of a session in the order read, each with the clock
    readings of its request: what is written for each, and the record at
    the end. *)
Fixpoint serve_lines (lines : list (float * float * string))
    (s : ServerStats float) : option (list string * ServerStats float) :=
  match lines with
  | [] => Some ([], s)
  | (started, finished, raw) :: rest =>
      '(written, s) ← serve_line started finished raw s;
      '(more, s) ← serve_lines rest s;
      Some (written :: more, s)
  end.

End Loop.
End Handler.

(** ** client.py *)

Module Client.
Import Protocol.

Inductive client_exn : Type :=
  | KeyboardInterrupt
  | ValueError (msg : string).

(** What a call comes to: the value returned or the exception raised. *)
Inductive outcome (A : Type) : Type :=
  | Return (a : A)
  | Throw (e : client_exn).
Arguments Return {A} a.
Arguments Throw {A} e.

Definition invalid_command : string :=
  "Comando inválido. Use prime <n>, range <a> <b>, count <a> <b> ou stats.".

Section CommandLine.
Context `{PyText} `{JsonLib} `{JsonFailure}.

(** [parse_user_input].  The words compared with are ASCII and have no
    [k], the one ASCII letter a non-ASCII character lower-cases to, so
    [lower] decides the comparisons as [str.lower] does. *)
Definition parse_user_input (raw : string) : outcome (option Message) :=
  let parts := str_split (str_strip raw) in
  match parts with
  | [] => Return None
  | first :: _ =>
      let command := lower first in
      if String.eqb command "quit" || String.eqb command "exit" then
        Throw KeyboardInterrupt
      else if String.eqb command "prime" && (length parts =? 2)%nat then
        match int_of_str (nth 1 parts "") with
        | inr msg => Throw (ValueError msg)
        | inl number =>
            Return (Some {| command := "prime";
                            data := {[ "number" := JInt number ]} |})
        end
      else if String.eqb command "range" && (length parts =? 3)%nat then
        match int_of_str (nth 1 parts "") with
        | inr msg => Throw (ValueError msg)
        | inl start =>
            match int_of_str (nth 2 parts "") with
            | inr msg => Throw (ValueError msg)
            | inl end_ =>
                Return (Some {| command := "range";
                                data := {[ "start" := JInt start;
                                           "end" := JInt end_ ]} |})
            end
        end
      else if String.eqb command "count" && (length parts =? 3)%nat then
        match int_of_str (nth 1 parts "") with
        | inr msg => Throw (ValueError msg)
        | inl start =>
            match int_of_str (nth 2 parts "") with
            | inr msg => Throw (ValueError msg)
            | inl end_ =>
                Return (Some {| command := "count";
                                data := {[ "start" := JInt start;
                                           "end" := JInt end_ ]} |})
            end
        end
      else if String.eqb command "stats" && (length parts =? 1)%nat then
        Return (Some {| command := "stats"; data := ∅ |})
      else Throw (ValueError invalid_command)
  end.

(** What one iteration of the loop of [run_client] sends for a line typed:
    the bytes of [message.to_wire()], or nothing. *)
Definition client_sends (raw : string) : outcome (option string) :=
  match parse_user_input raw with
  | Return None => Return None
  | Return (Some message) => Return (Some (to_wire message))
  | Throw e => Throw e
  end.

(** What [ClientListener.run] makes of a line received: the [status] and
    [payload] it prints, a malformed response it skips, or an exception
    that it does not catch and that ends the thread. *)
Inductive listened : Type :=
  | Shown (status payload : JSON)
  | Malformed
  | Ended.

Definition listen (chunk : string) : listened :=
  match bytes_decode chunk with
  | inr _ => Ended
  | inl text =>
      match json_loads text with
      | None =>
          match json_loads_failure text with
          | JSONDecodeError => Malformed
          | OtherValueError _ | OtherException _ => Ended
          end
      | Some (JObject message) =>
          Shown (dict_get message "status") (dict_get message "payload")
      | Some _ => Ended
      end
  end.

End CommandLine.
End Client.

(** ** server.py: the client counter under concurrent sessions

    [_register_client] runs two blocks under two locks: the counter is
    changed and read under [_client_counter_lock], and the value read is
    then stored by [set_active_clients] under [_stats_lock].  Each block
    only touches what its own lock guards, so a block runs as one step;
    another session may run between the two. *)
Module Registration.
Import Server.
Section Blocks.
Context {F : Type} `{PyFloat F}.

(** [with self._client_counter_lock: ...]: the counter afterwards is the
    value of [current]. *)
Definition count_block (delta : Z) (srv : DistributedPrimeServer F)
    : Z * DistributedPrimeServer F :=
  let counter := _client_counter srv + delta in
  (counter, {| _dispatcher := _dispatcher srv; _client_counter := counter |}).

(** [self._dispatcher.set_active_clients(current)] *)
Definition publish_block (current : Z) (srv : DistributedPrimeServer F)
    : DistributedPrimeServer F :=
  {| _dispatcher := set_active_clients current (_dispatcher srv);
     _client_counter := _client_counter srv |}.

(** [self._dispatcher.increment_completed_clients()] *)
Definition complete_block (srv : DistributedPrimeServer F)
    : DistributedPrimeServer F :=
  {| _dispatcher := increment_completed_clients (_dispatcher srv);
     _client_counter := _client_counter srv |}.

(** The blocks of [_handle_client] on the counters, in program order:
    [_register_client(+1)], then after the loop
    [increment_completed_clients()] and [_register_client(-1)]. *)
Inductive block : Type :=
  | CountUp
  | PublishEntered
  | Complete
  | CountDown
  | PublishLeft.

Definition session_blocks : list block :=
  [CountUp; PublishEntered; Complete; CountDown; PublishLeft].

(** A session thread: the blocks it has still to run, the value of its
    local [current], and its [client_id] once assigned. *)
Record session : Type := {
  remaining : list block;
  current : Z;
  client_id : option Z;
}.

Record sessions_state : Type := {
  server : DistributedPrimeServer F;
  sessions : list session;
}.

Definition start (n : nat) : sessions_state :=
  {| server := new_server;
     sessions := replicate n {| remaining := session_blocks; current := 0;
                                client_id := None |} |}.

Definition run_block (b : block) (rest : list block) (ss : session)
    (srv : DistributedPrimeServer F) : session * DistributedPrimeServer F :=
  match b with
  | CountUp =>
      let '(c, srv) := count_block 1 srv in
      ({| remaining := rest; current := c; client_id := Some c |}, srv)
  | CountDown =>
      let '(c, srv) := count_block (-1) srv in
      ({| remaining := rest; current := c; client_id := client_id ss |}, srv)
  | PublishEntered | PublishLeft =>
      ({| remaining := rest; current := current ss; client_id := client_id ss |},
       publish_block (current ss) srv)
  | Complete =>
      ({| remaining := rest; current := current ss; client_id := client_id ss |},
       complete_block srv)
  end.

(** The next block of session [t]; [None] when it has ended. *)
Definition step (t : nat) (st : sessions_state) : option sessions_state :=
  ss ← sessions st !! t;
  match remaining ss with
  | [] => None
  | b :: rest =>
      let '(ss', srv) := run_block b rest ss (server st) in
      Some {| server := srv; sessions := <[t := ss']> (sessions st) |}
  end.

Fixpoint run (schedule : list nat) (st : sessions_state)
    : option sessions_state :=
  match schedule with
  | [] => Some st
  | t :: rest => st' ← step t st; run rest st'
  end.

End Blocks.
Arguments session_blocks : clear implicits.
Arguments session : clear implicits.
Arguments sessions_state F : clear implicits.
End Registration.

(** ** Text builtins on ASCII, to run the definitions on examples

    A [PyText] for lines of ASCII text.  White space is what [str.strip]
    and [str.split] take as such below 128: the characters 9 to 13, 28 to
    31 and the space.  [int_of_str] reads an optional sign and decimal
    digits between optional white space; it does not read underscores or
    the digits of other scripts, which [int] does.  [bytes_decode] takes
    every line as it is. *)
Module AsciiText.

Definition is_white (c : ascii) : bool :=
  let n := nat_of_ascii c in
  ((9 <=? n) && (n <=? 13) || (28 <=? n) && (n <=? 32))%nat.

Fixpoint strip_left (s : string) : string :=
  match s with
  | String c rest => if is_white c then strip_left rest else s
  | EmptyString => s
  end.

(** [s] without its trailing white space. *)
Fixpoint strip_right (s : string) : string :=
  match s with
  | EmptyString => EmptyString
  | String c rest =>
      match strip_right rest with
      | EmptyString => if is_white c then EmptyString else String c EmptyString
      | kept => String c kept
      end
  end.

Definition strip (s : string) : string := strip_right (strip_left s).

(** The words of [s]: [word] is the word being read, last character
    first. *)
Fixpoint split_from (s : string) (word : list ascii) : list string :=
  let flush (rest : list string) :=
    match word with
    | [] => rest
    | _ => String.string_of_list_ascii (rev word) :: rest
    end in
  match s with
  | EmptyString => flush []
  | String c rest =>
      if is_white c then flush (split_from rest [])
      else split_from rest (c :: word)
  end.

Definition split (s : string) : list string := split_from s [].

Fixpoint read_digits (s : string) (acc : Z) : option Z :=
  match s with
  | EmptyString => Some acc
  | String c rest =>
      let n := Z.of_nat (nat_of_ascii c) in
      if (48 <=? n) && (n <=? 57) then read_digits rest (acc * 10 + (n - 48))
      else None
  end.

Definition to_int (text : string) : Z + string :=
  let failure :=
    inr ("invalid literal for int() with base 10: '" +:+ text +:+ "'") in
  let '(negative, digits) :=
    match strip text with
    | String "-" rest => (true, rest)
    | String "+" rest => (false, rest)
    | rest => (false, rest)
    end in
  match digits with
  | EmptyString => failure
  | _ =>
      match read_digits digits 0 with
      | Some n => inl (if negative then - n else n)
      | None => failure
      end
  end.

#[export] Instance text : PyText := {
  bytes_decode raw := inl raw;
  str_strip := strip;
  str_split := split;
  int_of_str := to_int;
}.

End AsciiText.

(** * What the further properties are stated with *)

Section Calls.
Context {F : Type} `{PyFloat F}.
Import Server.

(** The calls of a sequence that go through [_update_stats]. *)
Definition is_prime_call (c : call F) : bool :=
  match c with CallPrime _ _ _ => true | _ => false end.

Definition is_range_call (c : call F) : bool :=
  match c with CallRange _ _ _ _ => true | _ => false end.

Definition is_count_call (c : call F) : bool :=
  match c with CallCount _ _ _ _ => true | _ => false end.

Definition is_stats_call (c : call F) : bool :=
  match c with CallStats => true | _ => false end.

Definition how_many (kind : call F → bool) (calls : list (call F)) : Z :=
  Z.of_nat (length (filter (λ c, kind c = true) calls)).

(** The duration a call records, if it records one. *)
Definition call_duration (c : call F) : option F :=
  match c with
  | CallPrime started finished _
  | CallRange started finished _ _
  | CallCount started finished _ _ => Some (f_sub finished started)
  | CallStats => None
  end.

Definition durations (calls : list (call F)) : list F :=
  omap call_duration calls.

(** The record a dispatcher is left with: the last of the records of a
    trace, or the one it started from. *)
Definition final (s : ServerStats F) (states : list (ServerStats F))
    : ServerStats F :=
  default s (last states).

(** The three names under which [_update_stats] is called. *)
Definition counted_command (command : string) : Prop :=
  command = "prime" ∨ command = "range" ∨ command = "count".

End Calls.

Section Dispatched.
Context `{PyFloat float}.
Import Protocol Server Handler.

(** The message [_require_int] raises with. *)
Definition field_error (key : string) : exn :=
  ProtocolError ("field '" +:+ key +:+ "' must be an integer").

(** What a dispatch comes to, by the command. *)
Definition dispatched (started finished : float) (message : Message)
    (s : ServerStats float) (r : result (gmap string JSON))
    (s' : ServerStats float) : Prop :=
  match r with
  | Ok _ =>
      command message = "stats" ∧ s' = s
      ∨ counted_command (command message)
        ∧ s' = _update_stats (command message) (f_sub finished started) s
  | Raise e =>
      s' = s
      ∧ (e = ProtocolError ("unknown command: " +:+ command message)
         ∧ ¬ counted_command (command message)
         ∧ command message ≠ "stats"
         ∨ counted_command (command message)
           ∧ ∃ key, e = field_error key
               ∧ isinstance_int (dict_get (data message) key) = false)
  end.

End Dispatched.

Section Served.
Context `{PyFloat float} `{Protocol.JsonLib} `{Protocol.JsonFailure}
  `{PyText}.
Import Protocol Server Responses.

(** The line is one on which [json.loads] raises an exception that is no
    [ValueError], [repr] being its [repr(exc)]. *)
Definition unexpected (raw repr : string) : Prop :=
  ∃ line, bytes_decode raw = inl line
    ∧ json_loads (str_strip line) = None
    ∧ json_loads_failure (str_strip line) = OtherException repr.

(** What serving the line [raw] comes to: an [ok] response, with at most
    one more request counted and [last_error] as it was; or an error
    response carrying [text], with [text] in [last_error] and nothing else
    changed; or, on a line that is [unexpected], the error response
    [internal server error], with [repr(exc)] in [last_error] and nothing
    else changed. *)
Definition served (raw : string) (s : ServerStats float) (written : string)
    (s' : ServerStats float) : Prop :=
  (∃ payload, written = encode_response payload "ok"
     ∧ last_error s' = last_error s
     ∧ (total_requests s' = total_requests s
        ∨ total_requests s' = total_requests s + 1))
  ∨ (∃ text, written = encode_error text ∧ s' = set_last_error text s)
  ∨ (∃ repr, unexpected raw repr
       ∧ written = encode_error "internal server error"
       ∧ s' = set_last_error repr s).

End Served.

Section Registered.
Context {F : Type} `{PyFloat F}.
Import Server Registration.




Definition has_ended (ss : session) : bool :=
  (length (remaining ss) =? 0)%nat.


(** A session that has not run a block yet. *)
Definition fresh : session :=
  {| remaining := session_blocks; current := 0; client_id := None |}.

(** A session that has run all its blocks, with the id it was given. *)
Definition ended_session (id : Z) : session :=
  {| remaining := []; current := 0; client_id := Some id |}.

(** The schedule that runs the sessions from 2 on one after the other and
    then lets sessions 0 and 1 overlap: both enter, session 0 counts
    itself out, session 1 leaves entirely, and only then session 0 stores
    the count it read. *)
Definition overlapping_schedule (n : nat) : list nat :=
  flat_map (λ t, replicate 5 t) (seq 2 (n - 2))
  ++ [0; 0; 1; 1; 0; 0; 1; 1; 1; 0]%nat.

End Registered.

Section Request_examples.
Import Protocol.

(** The message for [Prime 17], as a client that does not lower-case its
    commands would send it. *)
Definition prime_17_message : Message :=
  {| command := "Prime"; data := {[ "number" := JInt 17 ]} |}.

Definition prime_17_lowered : Message :=
  {| command := "prime"; data := {[ "number" := JInt 17 ]} |}.

(** The data of [count 10 1]. *)
Definition from_10_to_1 : gmap string JSON :=
  {[ "start" := JInt 10; "end" := JInt 1 ]}.

Definition count_10_1_message : Message :=
  {| command := "count"; data := from_10_to_1 |}.

Definition unknown_bogus : gmap string JSON :=
  {[ "error" := JString "unknown command: bogus" ]}.

End Request_examples.

(** * Properties *)

(** ** tasks.py: is_prime *)

Section IsPrime.
Import Tasks.

Lemma wheel_next k step : wheel k step → wheel (k + step) (6 - step).
Proof.
  unfold wheel. intros [[-> Hk] | [-> Hk]]; [right | left]; split; try lia.
  - rewrite <- Zplus_mod_idemp_l, Hk. reflexivity.
  - rewrite <- Zplus_mod_idemp_l, Hk. reflexivity.
Qed.

Lemma wheel_gap k step d :
  wheel k step → k < d < k + step → ¬ candidate d.
Proof.
  unfold wheel, candidate. intros Hw Hd Hc.
  assert (Hk : k = 6 * (k / 6) + k mod 6) by (apply Z.div_mod; lia).
  assert (Hd6 : d = 6 * (d / 6) + d mod 6) by (apply Z.div_mod; lia).
  lia.
Qed.

(** With fuel for every remaining iteration the loop returns, and it
    returns [True] exactly when no candidate between [k] and [limit]
    divides [n]. *)
Lemma is_prime_loop_spec fuel : ∀ n limit k step,
  wheel k step → limit - k + 1 ≤ Z.of_nat fuel →
  (is_prime_loop fuel n limit k step = Some true
     ∧ ∀ d, k ≤ d ≤ limit → candidate d → n mod d ≠ 0)
  ∨ (is_prime_loop fuel n limit k step = Some false
     ∧ ∃ d, k ≤ d ≤ limit ∧ candidate d ∧ n mod d = 0).
Proof.
  induction fuel as [|fuel IH]; intros n limit k step Hw Hfuel; simpl.
  - destruct (Z.leb_spec k limit); [lia|]. left. split; [done|]. lia.
  - destruct (Z.leb_spec k limit) as [Hle|Hgt].
    2:{ left. split; [done|]. lia. }
    destruct (Z.eqb_spec (n mod k) 0) as [Hdiv|Hndiv].
    + right. split; [done|]. exists k. split; [lia|]. split; [|done].
      destruct Hw as [[_ ?]|[_ ?]]; [right|left]; done.
    + assert (Hstep : 2 ≤ step) by (destruct Hw as [[-> _]|[-> _]]; lia).
      destruct (IH n limit (k + step) (6 - step)) as [[-> Hall]|[-> Hex]];
        [by apply wheel_next | lia | left | right]; (split; [done|]).
      * intros d Hd Hc.
        destruct (Z.eq_dec d k) as [->|Hne]; [done|].
        destruct (Z_lt_le_dec d (k + step)) as [Hlt|Hge].
        -- exfalso. apply (wheel_gap k step d); [done|lia|done].
        -- apply Hall; [lia|done].
      * destruct Hex as (d & Hd & Hc & Hdiv). exists d. split; [lia|done].
Qed.

(** The answer does not depend on the fuel: more fuel gives the same. *)
Lemma is_prime_loop_more_fuel fuel : ∀ fuel' n limit k step b,
  is_prime_loop fuel n limit k step = Some b → (fuel ≤ fuel')%nat →
  is_prime_loop fuel' n limit k step = Some b.
Proof.
  induction fuel as [|fuel IH]; intros fuel' n limit k step b; simpl.
  - destruct (Z.leb_spec k limit); [done|]. intros <- _.
    destruct fuel'; simpl; destruct (Z.leb_spec k limit); done || lia.
  - destruct (Z.leb_spec k limit) as [Hle|Hgt].
    + intros Hb Hfuel. destruct fuel' as [|fuel']; [lia|]. simpl.
      destruct (Z.leb_spec k limit); [|lia].
      destruct (n mod k =? 0); [done|]. apply IH; [done|lia].
    + intros <- _. destruct fuel'; simpl; destruct (Z.leb_spec k limit);
        done || lia.
Qed.

Lemma mod_zero_divide n d : d ≠ 0 → n mod d = 0 ↔ (d | n).
Proof. intros Hd. by apply Z.mod_divide. Qed.

(** A proper divisor of [n] no larger than its cofactor is at most
    [isqrt(n)]. *)
Lemma small_divisor_le_sqrt n d q :
  0 < d → d ≤ q → n = q * d → d ≤ Z.sqrt n.
Proof.
  intros Hd Hq ->. apply Z.sqrt_le_square; nia.
Qed.

(** A number with no factor 2 or 3 has none among its divisors either, so
    each of its divisors above 1 is a candidate of the wheel. *)
Lemma divisor_candidate n d :
  n mod 2 ≠ 0 → n mod 3 ≠ 0 → 1 < d → (d | n) → candidate d ∧ 5 ≤ d.
Proof.
  intros H2 H3 Hd Hdn.
  assert (Hd2 : d mod 2 ≠ 0).
  { intros E. apply H2. apply mod_zero_divide; [lia|].
    apply Z.divide_trans with d; [|done]. by apply mod_zero_divide. }
  assert (Hd3 : d mod 3 ≠ 0).
  { intros E. apply H3. apply mod_zero_divide; [lia|].
    apply Z.divide_trans with d; [|done]. by apply mod_zero_divide. }
  unfold candidate.
  assert (E6 : d = 6 * (d / 6) + d mod 6) by (apply Z.div_mod; lia).
  assert (E2 : d = 2 * (d / 2) + d mod 2) by (apply Z.div_mod; lia).
  assert (E3 : d = 3 * (d / 3) + d mod 3) by (apply Z.div_mod; lia).
  pose proof (Z.mod_pos_bound d 6). pose proof (Z.mod_pos_bound d 2).
  pose proof (Z.mod_pos_bound d 3). lia.
Qed.

Lemma proper_divisor_not_prime n d : 1 < d < n → (d | n) → ¬ Z.prime n.
Proof.
  intros Hd Hdn [_ Hp]. by apply (Hp d).
Qed.

(** What [is_prime] returns, in full: it always returns; [True] comes with
    a proof that [n] is prime, [False] with [n < 2] or a proper divisor. *)
Lemma is_prime_cases n :
  is_prime n = Some true ∧ Z.prime n
  ∨ is_prime n = Some false ∧ (n < 2 ∨ ∃ d, 1 < d < n ∧ (d | n)).
Proof.
  unfold is_prime.
  destruct (Z.ltb_spec n 2) as [Hlt|Hge]; [right; split; [done|by left]|].
  destruct (Z.eqb_spec n 2) as [->|Hn2]; [left; split; [done|apply Z.prime_2]|].
  destruct (Z.eqb_spec n 3) as [->|Hn3]; [left; split; [done|apply Z.prime_3]|].
  simpl.
  destruct (Z.eqb_spec (n mod 2) 0) as [H2|H2].
  { right. split; [done|]. right. exists 2. split; [lia|].
    by apply mod_zero_divide. }
  destruct (Z.eqb_spec (n mod 3) 0) as [H3|H3].
  { right. split; [done|]. right. exists 3. split; [lia|].
    by apply mod_zero_divide. }
  simpl.
  pose proof (Z.sqrt_nonneg n) as Hs.
  assert (Hsn : Z.sqrt n < n) by (apply Z.sqrt_lt_lin; lia).
  destruct (is_prime_loop_spec (Z.to_nat (Z.sqrt n)) n (Z.sqrt n) 5 2)
    as [[-> Hall]|[-> (d & Hd & _ & Hdiv)]].
  - left. done.
  - lia.
  - left. split; [done|]. split; [lia|].
    intros m Hm [q Hq].
    assert (Hqpos : 1 < q) by nia.
    set (a := Z.min m q).
    assert (Ha : 1 < a) by (unfold a; lia).
    assert (Han : (a | n)).
    { unfold a. destruct (Z.min_spec m q) as [[_ ->]|[_ ->]].
      - by exists q.
      - exists m. lia. }
    destruct (divisor_candidate n a H2 H3 Ha Han) as [Hc H5].
    apply (Hall a); [split; [done|] | done | by apply mod_zero_divide; [lia|]].
    unfold a. destruct (Z.min_spec m q) as [[Hlt ->]|[Hle ->]].
    + apply (small_divisor_le_sqrt n m q); lia.
    + apply (small_divisor_le_sqrt n q m); lia.
  - right. split; [done|]. right. exists d. split; [lia|].
    apply mod_zero_divide; [lia|done].
Qed.

Lemma is_prime_true n : is_prime n = Some true ↔ Z.prime n.
Proof.
  destruct (is_prime_cases n) as [[E Hp]|[E Hn]]; rewrite E.
  - done.
  - split; [done|]. intros Hp. exfalso. destruct Hn as [Hlt|(d & Hd & Hdn)].
    + destruct Hp. lia.
    + by apply (proper_divisor_not_prime n d).
Qed.

Lemma is_prime_total n : is_Some (is_prime n).
Proof. destruct (is_prime_cases n) as [[-> _]|[-> _]]; eauto. Qed.

(** For [n] from 5 on without a factor 2 or 3 the answer is the loop's: it
    is [True] exactly when no candidate from 5 to [isqrt(n)] divides [n]. *)
Lemma is_prime_wheel n :
  5 ≤ n → n mod 2 ≠ 0 → n mod 3 ≠ 0 →
  is_prime n = Some true ↔
  ∀ d, 5 ≤ d ≤ Z.sqrt n → candidate d → n mod d ≠ 0.
Proof.
  intros Hn H2 H3. unfold is_prime.
  destruct (Z.ltb_spec n 2); [lia|].
  destruct (Z.eqb_spec n 2); [lia|]. destruct (Z.eqb_spec n 3); [lia|].
  destruct (Z.eqb_spec (n mod 2) 0); [done|].
  destruct (Z.eqb_spec (n mod 3) 0); [done|]. simpl.
  pose proof (Z.sqrt_nonneg n).
  destruct (is_prime_loop_spec (Z.to_nat (Z.sqrt n)) n (Z.sqrt n) 5 2)
    as [[-> Hall]|[-> (d & Hd & Hc & Hdiv)]]; [by left | lia | done |].
  split; [done|]. intros Hall. exfalso. by apply (Hall d).
Qed.

(** C2: for every integer [n], [is_prime(n)] returns, and it returns [True]
    if and only if [n] is prime.  It returns [False] for every [n < 2] and
    [True] for 2 and 3; for a composite [n >= 2] it returns [False] and [n]
    has a divisor [d] with [1 < d < n].  Past the tests for 2 and 3 the
    divisors tried are the numbers 6j-1 and 6j+1 from 5 to [isqrt(n)]. *)
Theorem is_prime_decides_primality (n : Z) :
  ∃ b : bool,
    is_prime n = Some b
    ∧ (b = true ↔ Z.prime n)
    ∧ (n < 2 → b = false)
    ∧ (n = 2 ∨ n = 3 → b = true)
    ∧ (2 ≤ n → ¬ Z.prime n → b = false ∧ ∃ d, 1 < d < n ∧ (d | n))
    ∧ (5 ≤ n → n mod 2 ≠ 0 → n mod 3 ≠ 0 →
       (b = true ↔ ∀ d, 5 ≤ d ≤ Z.sqrt n → candidate d → n mod d ≠ 0)).
Proof.
  destruct (is_prime_cases n) as [[E Hp]|[E Hn]].
  - exists true. split; [done|]. split; [done|].
    split; [intros; destruct Hp; lia|]. split; [done|]. split; [done|].
    intros H5 H2 H3. rewrite <- (is_prime_wheel n H5 H2 H3). done.
  - assert (Hnp : ¬ Z.prime n).
    { intros Hp. destruct Hn as [Hlt|(d & Hd & Hdn)].
      - destruct Hp. lia.
      - by apply (proper_divisor_not_prime n d). }
    exists false. split; [done|]. split; [split; [done|by intros ?%Hnp]|].
    split; [done|].
    split; [intros [->| ->]; exfalso; apply Hnp;
            [apply Z.prime_2 | apply Z.prime_3]|].
    split.
    + intros Hge _. split; [done|]. destruct Hn as [?|?]; [lia|done].
    + intros H5 H2 H3. rewrite <- (is_prime_wheel n H5 H2 H3), E. done.
Qed.

End IsPrime.

(** ** tasks.py: primes_in_range and count_primes *)

Section PrimesInRange.
Import Tasks.

Lemma is_prime_decide n : is_prime n = Some (bool_decide (Z.prime n)).
Proof.
  destruct (is_prime_total n) as [b E]. rewrite E. f_equal.
  destruct b.
  - apply is_prime_true in E. by rewrite bool_decide_eq_true_2.
  - rewrite bool_decide_eq_false_2; [done|].
    intros Hp%is_prime_true. congruence.
Qed.

(** The [for] loop appends to [primes] the primes among [values], in the
    order of [values]. *)
Lemma primes_loop_filter values : ∀ primes,
  primes_loop values primes = Some (primes ++ filter Z.prime values).
Proof.
  induction values as [|value rest IH]; intros primes; simpl.
  - by rewrite app_nil_r.
  - rewrite is_prime_decide. simpl. rewrite IH.
    rewrite filter_cons. destruct (decide (Z.prime value)) as [Hp|Hp].
    + rewrite bool_decide_eq_true_2 by done. by rewrite <- app_assoc.
    + by rewrite bool_decide_eq_false_2 by done.
Qed.

Lemma primes_in_range_filter a b :
  primes_in_range a b
  = Some (filter Z.prime (seqZ (Z.min a b) (Z.max a b + 1 - Z.min a b))).
Proof.
  unfold primes_in_range, range.
  destruct (Z.gtb_spec a b) as [Hgt|Hle]; rewrite primes_loop_filter; simpl.
  - by rewrite Z.min_r, Z.max_l by lia.
  - by rewrite Z.min_l, Z.max_r by lia.
Qed.

Lemma StronglySorted_seqZ m n : StronglySorted Z.lt (seqZ m n).
Proof.
  destruct (Z_le_gt_dec n 0) as [Hn|Hn].
  { rewrite seqZ_nil by done. constructor. }
  rewrite <- (Z2Nat.id n) by lia.
  generalize (Z.to_nat n) as len. clear n Hn. intros len. revert m.
  induction len as [|len IH]; intros m.
  - rewrite seqZ_nil by done. constructor.
  - rewrite seqZ_cons by lia. constructor.
    + replace (Z.pred (Z.of_nat (S len))) with (Z.of_nat len) by lia. apply IH.
    + apply Forall_forall. intros x Hx%elem_of_seqZ. lia.
Qed.

Lemma StronglySorted_filter {A} (R : A → A → Prop) (P : A → Prop)
    `{!∀ x, Decision (P x)} (l : list A) :
  StronglySorted R l → StronglySorted R (filter P l).
Proof.
  induction 1 as [|x l Hs IH Hall]; [constructor|].
  rewrite filter_cons. destruct (decide (P x)); [|done].
  constructor; [done|]. apply Forall_forall.
  intros y [_ Hy]%list_elem_of_filter.
  rewrite Forall_forall in Hall. by apply Hall.
Qed.

(** C3: for all integers [a] and [b], [primes_in_range(a, b)] returns
    exactly the primes of the closed interval from [min(a, b)] to
    [max(a, b)], in strictly ascending order, and [primes_in_range(b, a)]
    returns the same list. *)
Theorem primes_in_range_exact (a b : Z) :
  ∃ primes : list Z,
    primes_in_range a b = Some primes
    ∧ (∀ p, p ∈ primes ↔ Z.prime p ∧ Z.min a b ≤ p ≤ Z.max a b)
    ∧ StronglySorted Z.lt primes
    ∧ primes_in_range b a = Some primes.
Proof.
  eexists. split; [apply primes_in_range_filter|]. split; [|split].
  - intros p. rewrite list_elem_of_filter, elem_of_seqZ. intuition lia.
  - apply StronglySorted_filter, StronglySorted_seqZ.
  - rewrite primes_in_range_filter. by rewrite Z.min_comm, Z.max_comm.
Qed.

Lemma count_primes_length a b :
  count_primes a b = (λ primes, Z.of_nat (length primes)) <$> primes_in_range a b.
Proof. unfold count_primes. by destruct (primes_in_range a b). Qed.

End PrimesInRange.

(** ** server.py: the statistics record *)

Section Stats.
Context {F : Type} `{PyFloat F}.
Import Server.

Lemma register_duration_counters duration (s : ServerStats F) :
  total_requests (register_duration duration s) = total_requests s
  ∧ prime_checks (register_duration duration s) = prime_checks s
  ∧ range_requests (register_duration duration s) = range_requests s
  ∧ range_counts (register_duration duration s) = range_counts s.
Proof.
  unfold register_duration. by destruct (f_gtb duration (max_duration s)).
Qed.

Ltac counters :=
  unfold _update_stats, counters_step;
  repeat match goal with
  | |- context [register_duration ?d ?s] =>
      let E := fresh in
      pose proof (register_duration_counters d s) as E;
      destruct E as (-> & -> & -> & ->)
  end; simpl; repeat split; lia.

Lemma update_stats_prime duration (s : ServerStats F) :
  counters_step (CallPrime duration duration 0) s
    (_update_stats "prime" duration s).
Proof. counters. Qed.

Lemma update_stats_range duration (s : ServerStats F) :
  counters_step (CallRange duration duration 0 0) s
    (_update_stats "range" duration s).
Proof. counters. Qed.

Lemma update_stats_count duration (s : ServerStats F) :
  counters_step (CallCount duration duration 0 0) s
    (_update_stats "count" duration s).
Proof. counters. Qed.

(** Every call returns, and moves the counters as its kind says. *)
Lemma perform_counters (c : call F) (s : ServerStats F) :
  ∃ r s', perform c s = Some (r, s') ∧ counters_step c s s'.
Proof.
  destruct c as [started finished number | started finished a b
                | started finished a b |]; simpl.
  - unfold execute_prime. rewrite is_prime_decide. simpl.
    eexists _, _. split; [done|]. apply update_stats_prime.
  - unfold execute_range. rewrite primes_in_range_filter. simpl.
    eexists _, _. split; [done|]. apply update_stats_range.
  - unfold execute_count. rewrite count_primes_length, primes_in_range_filter.
    simpl. eexists _, _. split; [done|]. apply update_stats_count.
  - eexists _, _. split; done.
Qed.

Lemma counters_step_agree (c : call F) (s s' : ServerStats F) :
  counters_agree s → counters_step c s s' → counters_agree s'.
Proof.
  unfold counters_agree. destruct c; simpl; [lia..|]. by intros ? ->.
Qed.

Lemma perform_all_agree (calls : list (call F)) : ∀ s : ServerStats F,
  counters_agree s →
  ∃ states, perform_all calls s = Some states
    ∧ length states = length calls ∧ Forall counters_agree states.
Proof.
  induction calls as [|c calls IH]; intros s Hs; simpl.
  - by exists [].
  - destruct (perform_counters c s) as (r & s' & -> & Hstep). simpl.
    pose proof (counters_step_agree c s s' Hs Hstep) as Hs'.
    destruct (IH s' Hs') as (states & -> & Hlen & Hall). simpl.
    exists (s' :: states). split; [done|]. split; [by rewrite <- Hlen|].
    by constructor.
Qed.

(** C1: from the all-zero record, after each call of any sequence of
    [execute_prime], [execute_range], [execute_count] and [stats] calls the
    record satisfies [total_requests == prime_checks + range_requests +
    range_counts].  A prime, range or count call adds one to
    [total_requests] and to its own counter and leaves the other two; a
    [stats] call leaves the whole record as it was. *)
Theorem stats_counters_invariant :
  (∀ calls : list (call F),
     ∃ states, perform_all calls new_stats = Some states
       ∧ length states = length calls ∧ Forall counters_agree states)
  ∧ (∀ (c : call F) (s : ServerStats F),
       ∃ r s', perform c s = Some (r, s') ∧ counters_step c s s').
Proof.
  split.
  - intros calls. by apply perform_all_agree.
  - apply perform_counters.
Qed.

(** C4: for all integers [start] and [end], [execute_range] returns a
    payload whose [count] is the length of the whole list
    [primes_in_range(start, end)], whose [primes] are the first
    [min(count, 200)] elements of that list, and whose [truncated] is
    [count > 200]. *)
Theorem execute_range_payload (started finished : F) (start end_ : Z)
    (s : ServerStats F) :
  ∃ primes payload s',
    Tasks.primes_in_range start end_ = Some primes
    ∧ execute_range started finished start end_ s = Some (payload, s')
    ∧ rp_count payload = Z.of_nat (length primes)
    ∧ rp_primes payload = take (Z.to_nat (Z.min (rp_count payload) 200)) primes
    ∧ rp_truncated payload = bool_decide (rp_count payload > 200).
Proof.
  unfold execute_range. rewrite primes_in_range_filter. simpl.
  eexists _, _, _. split; [done|]. split; [done|]. simpl.
  set (primes := filter Z.prime _). split; [done|]. split.
  - destruct (Z.leb_spec (Z.of_nat (length primes)) 200) as [Hle|Hgt].
    + rewrite Z.min_l by done. rewrite Nat2Z.id. by rewrite firstn_all.
    + by rewrite Z.min_r by lia.
  - destruct (Z.gtb_spec (Z.of_nat (length primes)) 200).
    + by rewrite bool_decide_eq_true_2 by lia.
    + by rewrite bool_decide_eq_false_2 by lia.
Qed.

(** C8: the average duration is computed from the record at each read: it
    is [cumulative_duration / total_requests] when [total_requests > 0] and
    [0.0] when [total_requests == 0], so two records with the same two
    fields have the same average; the snapshot reports the average and the
    maximum rounded to 6 digits. *)
Theorem average_duration_derived (s : ServerStats F) :
  (total_requests s > 0 →
     average_duration s
     = f_div (cumulative_duration s) (f_of_int (total_requests s)))
  ∧ (total_requests s = 0 → average_duration s = f_zero)
  ∧ (∀ s2 : ServerStats F,
       total_requests s2 = total_requests s →
       cumulative_duration s2 = cumulative_duration s →
       average_duration s2 = average_duration s)
  ∧ average_duration_sec (snapshot s) = f_round (average_duration s) 6
  ∧ max_duration_sec (snapshot s) = f_round (max_duration s) 6.
Proof.
  unfold average_duration. repeat split.
  - intros Hpos. destruct (Z.eqb_spec (total_requests s) 0); [lia|done].
  - by intros ->.
  - by intros s2 -> ->.
Qed.

End Stats.

(** ** protocol.py: Message.from_wire and Message.to_wire *)

Section CodecFacts.
Context `{Protocol.JsonLib} `{Protocol.JsonFailure} `{Protocol.PyLower}.
Import Protocol.


(** What [from_wire] does once [json.loads] has returned a dict. *)
Lemma from_wire_object raw loaded :
  json_loads raw = Some (JObject loaded) →
  match loaded !! "command" with
  | Some (JString c) =>
      match loaded !! "data" with
      | None | Some JNull =>
          from_wire raw = Ok {| command := str_lower c; data := ∅ |}
      | Some (JObject fields) =>
          from_wire raw = Ok {| command := str_lower c; data := fields |}
      | Some _ => raises_protocol_error (from_wire raw)
      end
  | _ => raises_protocol_error (from_wire raw)
  end.
Proof.
  intros E. unfold from_wire, dict_get, raises_protocol_error. rewrite E.
  destruct (loaded !! "command") as [[]|]; simpl; eauto.
  destruct (loaded !! "data") as [[]|]; simpl; eauto.
Qed.






End CodecFacts.

(** *** The codec on concrete lines *)

Section CodecExamples.
Import Protocol.



(** An upper-case command does not survive the round trip: it comes back
    lower-cased. *)
Example to_wire_from_wire_upper :
  @from_wire MiniJson.lib MiniJson.failure MiniJson.ascii_lower
    (@to_wire MiniJson.lib {| command := "STATS"; data := ∅ |})
  = Ok {| command := "stats"; data := ∅ |}.
Proof. vm_compute. reflexivity. Qed.

Example from_wire_not_json :
  @from_wire MiniJson.lib MiniJson.failure MiniJson.ascii_lower
    "{command: prime}"
  = Raise (ProtocolError "payload is not valid JSON").
Proof. vm_compute. reflexivity. Qed.

Example from_wire_array :
  @from_wire MiniJson.lib MiniJson.failure MiniJson.ascii_lower
    "[1, 2]"
  = Raise (ProtocolError "payload must be a JSON object").
Proof. vm_compute. reflexivity. Qed.

Example from_wire_data_list :
  @from_wire MiniJson.lib MiniJson.failure MiniJson.ascii_lower
    (MiniJson.dq "{'command': 'prime', 'data': [17]}")
  = Raise (ProtocolError "data field must be a JSON object").
Proof. vm_compute. reflexivity. Qed.

End CodecExamples.

(** ** server.py: _require_int *)

Section RequireInt.
Import Protocol Server.

(** What [_require_int] does for each kind of value under [key]. *)
Lemma require_int_cases (data : gmap string JSON) (key : string) :
  match data !! key with
  | Some (JInt z) => _require_int data key = Ok (JInt z)
  | Some (JBool b) => _require_int data key = Ok (JBool b)
  | _ =>
      _require_int data key
      = Raise (ProtocolError ("field '" +:+ key +:+ "' must be an integer"))
  end.
Proof.
  unfold _require_int, dict_get. by destruct (data !! key) as [[]|].
Qed.

(** C6 at [{"number": true}]: the value is a JSON boolean, not an integer,
    and [_require_int] returns it instead of raising. *)
Theorem require_int_accepts_bool :
  _require_int {[ "number" := JBool true ]} "number" = Ok (JBool true).
Proof. reflexivity. Qed.

Example require_int_int :
  _require_int {[ "number" := JInt 17 ]} "number" = Ok (JInt 17).
Proof. reflexivity. Qed.

Example require_int_missing :
  _require_int {[ "start" := JInt 1 ]} "end"
  = Raise (ProtocolError "field 'end' must be an integer").
Proof. reflexivity. Qed.

Example require_int_float :
  _require_int {[ "number" := JFloat 17 ]} "number"
  = Raise (ProtocolError "field 'number' must be an integer").
Proof. reflexivity. Qed.

End RequireInt.

(** ** server.py: client ids *)

Section ClientIds.
Context {F : Type} `{PyFloat F}.
Import Server.

(** The id a session gets is the counter after its own increment, and the
    counter is the number of sessions between their start and their end. *)
Lemma session_enter_id (srv : DistributedPrimeServer F) :
  fst (session_enter srv) = _client_counter srv + 1
  ∧ _client_counter (snd (session_enter srv)) = _client_counter srv + 1.
Proof. done. Qed.

Lemma session_exit_counter (srv : DistributedPrimeServer F) :
  _client_counter (session_exit srv) = _client_counter srv - 1.
Proof. unfold session_exit. simpl. lia. Qed.

(** C7 on two runs.  A session that starts after another has ended gets
    the id the first one had; and with two sessions open, one ending and a
    third starting, the third gets the id of the one still open. *)
Theorem client_ids_repeat :
  client_ids [SessionStart; SessionEnd; SessionStart] (new_server (F:=F))
  = [1; 1]
  ∧ client_ids [SessionStart; SessionStart; SessionEnd; SessionStart]
      (new_server (F:=F))
    = [1; 2; 2].
Proof. split; reflexivity. Qed.

End ClientIds.

(** ** server.py: the statistics under concurrent sessions *)

Section Exclusion.
Context {F : Type} `{PyFloat F}.
Import Server.

(** The statements of a block, run without interruption, are the call. *)
Lemma run_body (o : stats_op F) (s : ServerStats F) :
  run_stmts (body o) s = apply_op o s.
Proof. by destruct o. Qed.

Lemma apply_ops_snoc (done : list (stats_op F)) o (s : ServerStats F) :
  apply_ops (done ++ [o]) s = apply_op o (apply_ops done s).
Proof. unfold apply_ops. by rewrite foldl_app. Qed.

Lemma run_stmts_snoc (pre : list (stmt F)) st (s : ServerStats F) :
  run_stmts (pre ++ [st]) s = run_stmt st (run_stmts pre s).
Proof. unfold run_stmts. by rewrite foldl_app. Qed.

(** Only [stats] reads a snapshot, and it does so as the first statement
    of its block. *)
Lemma body_snapshot (o : stats_op F) pre sts :
  body o = pre ++ ReturnSnapshot :: sts → pre = [].
Proof.
  destruct o; simpl; intros E.
  - do 4 (destruct pre as [|? pre]; [done|injection E as <- E]).
    by destruct pre.
  - destruct pre as [|? pre]; [done|injection E as <- E]. by destruct pre.
  - destruct pre as [|? pre]; [done|injection E as <- E]. by destruct pre.
  - destruct pre as [|? pre]; [done|injection E as <- E]. by destruct pre.
  - destruct pre as [|? pre]; [done|]. injection E as _ E. by destruct pre.
Qed.

Lemma whole_state_grow (done : list (stats_op F)) o snap :
  whole_state done snap → whole_state (done ++ [o]) snap.
Proof.
  intros (before & Hpre & ->). exists before. split; [|done].
  by apply prefix_app_r.
Qed.

Lemma consistent_initial programs : consistent (initial programs).
Proof.
  split; [constructor|]. simpl. split; [done|].
  intros t th Ht. apply list_lookup_fmap_Some in Ht as (p & -> & _). done.
Qed.

(** The thread inside a block is the one the invariant names. *)
Lemma consistent_inside (sys : system F) t th o sts :
  consistent sys → threads sys !! t = Some th → in_block th = Some (o, sts) →
  locked sys = true
  ∧ ∃ pre, body o = pre ++ sts
      ∧ shared sys = run_stmts pre (apply_ops (completed sys) new_stats)
      ∧ ∀ t' th', t' ≠ t → threads sys !! t' = Some th' → outside th'.
Proof.
  intros [_ Hlock] Ht Hin. destruct (locked sys).
  - split; [done|].
    destruct Hlock as (t0 & th0 & o0 & pre & sts0 & Ht0 & Hin0 & Hb & Hs & Ho).
    destruct (decide (t = t0)) as [->|Hne].
    + assert (th0 = th) as -> by congruence.
      assert (o0 = o ∧ sts0 = sts) as [-> ->] by (split; congruence).
      by exists pre.
    + specialize (Ho t th Hne Ht). unfold outside in Ho. congruence.
  - destruct Hlock as [_ Hall]. specialize (Hall t th Ht).
    unfold outside in Hall. congruence.
Qed.

Lemma consistent_step (sys sys' : system F) t :
  consistent sys → step t sys = Some sys' → consistent sys'.
Proof.
  intros Hc Hstep. unfold step in Hstep.
  destruct (threads sys !! t) as [th|] eqn:Ht; [simpl in Hstep|done].
  assert (Hlen : (t < length (threads sys))%nat) by by eapply lookup_lt_Some.
  destruct (in_block th) as [[o [|st sts]]|] eqn:Hin.
  - (* the end of the block: the lock is released *)
    destruct (consistent_inside sys t th o [] Hc Ht Hin)
      as (_ & pre & Hb & Hs & Ho).
    injection Hstep as <-. destruct Hc as [Hobs _]. split; simpl.
    + eapply Forall_impl; [done|]. intros snap. apply whole_state_grow.
    + split.
      * rewrite apply_ops_snoc, <- run_body, Hb, app_nil_r. done.
      * intros t' th' Ht'. destruct (decide (t' = t)) as [->|Hne].
        -- rewrite list_lookup_insert_eq in Ht' by done. by injection Ht' as <-.
        -- rewrite list_lookup_insert_ne in Ht' by done. by eapply Ho.
  - (* one statement of the block *)
    destruct (consistent_inside sys t th o (st :: sts) Hc Ht Hin)
      as (Hl & pre & Hb & Hs & Ho).
    injection Hstep as <-. destruct Hc as [Hobs _]. split; simpl.
    + destruct st as [f|]; [done|].
      apply Forall_app. split; [done|]. constructor; [|constructor].
      exists (completed sys). split; [done|].
      apply body_snapshot in Hb as ->. by rewrite Hs.
    + rewrite Hl. exists t, {| pending := pending th; in_block := Some (o, sts) |},
        o, (pre ++ [st]), sts.
      split; [by rewrite list_lookup_insert_eq|]. split; [done|].
      split; [by rewrite <- app_assoc|].
      split; [by rewrite run_stmts_snoc, Hs|].
      intros t' th' Hne Ht'. rewrite list_lookup_insert_ne in Ht' by done.
      by eapply Ho.
  - (* the start of the block: the lock is taken *)
    destruct (pending th) as [|o rest] eqn:Hp; [done|].
    destruct (locked sys) eqn:Hl; [done|]. injection Hstep as <-.
    destruct Hc as [Hobs Hlock]. rewrite Hl in Hlock.
    destruct Hlock as [Hs Hall]. split; simpl; [done|].
    exists t, {| pending := rest; in_block := Some (o, body o) |}, o, [], (body o).
    split; [by rewrite list_lookup_insert_eq|]. split; [done|].
    split; [done|]. split; [done|].
    intros t' th' Hne Ht'. rewrite list_lookup_insert_ne in Ht' by done.
    by eapply Hall.
Qed.

Lemma consistent_run schedule : ∀ sys sys' : system F,
  consistent sys → run schedule sys = Some sys' → consistent sys'.
Proof.
  induction schedule as [|t rest IH]; intros sys sys' Hc Hrun; simpl in Hrun.
  - by injection Hrun as <-.
  - destruct (step t sys) as [mid|] eqn:Hstep; [simpl in Hrun|done].
    eapply IH; [|done]. by eapply consistent_step.
Qed.

Lemma from_programs_initial programs : from_programs programs (initial programs).
Proof.
  split; simpl; [by intros o ?%elem_of_nil|].
  intros t th Ht. apply list_lookup_fmap_Some in Ht as (p & -> & Hp). simpl.
  split; [|done]. intros o Ho. exists p. split; [|done].
  by eapply list_elem_of_lookup_2.
Qed.

Lemma from_programs_step programs (sys sys' : system F) t :
  from_programs programs sys → step t sys = Some sys' →
  from_programs programs sys'.
Proof.
  intros [Hdone Hths] Hstep. unfold step in Hstep.
  destruct (threads sys !! t) as [th|] eqn:Ht; [simpl in Hstep|done].
  assert (Hlen : (t < length (threads sys))%nat) by by eapply lookup_lt_Some.
  destruct (Hths t th Ht) as [Hpend Hblock].
  assert (Hother : ∀ th1 t',
    (∀ o, o ∈ pending th1 → ∃ p, p ∈ programs ∧ o ∈ p) →
    (∀ o sts, in_block th1 = Some (o, sts) → ∃ p, p ∈ programs ∧ o ∈ p) →
    ∀ th', <[t := th1]> (threads sys) !! t' = Some th' →
      (∀ o, o ∈ pending th' → ∃ p, p ∈ programs ∧ o ∈ p)
      ∧ ∀ o sts, in_block th' = Some (o, sts) → ∃ p, p ∈ programs ∧ o ∈ p).
  { intros th1 t' H1 H2 th' Ht'. destruct (decide (t' = t)) as [->|Hne].
    - rewrite list_lookup_insert_eq in Ht' by done. by injection Ht' as <-.
    - rewrite list_lookup_insert_ne in Ht' by done. by apply (Hths t'). }
  destruct (in_block th) as [[o [|st sts]]|] eqn:Hin.
  - injection Hstep as <-. split; simpl.
    + intros o' [Ho'|Ho'%list_elem_of_singleton]%elem_of_app; [by apply Hdone|].
      subst o'. by eapply Hblock.
    + intros t' th'. by apply Hother.
  - injection Hstep as <-. split; simpl; [done|].
    intros t' th'. apply Hother; simpl; [done|].
    intros o' sts' [= <- <-]. by eapply Hblock.
  - destruct (pending th) as [|o rest] eqn:Hp; [done|].
    destruct (locked sys); [done|]. injection Hstep as <-. split; simpl; [done|].
    intros t' th'. apply Hother; simpl.
    + intros o' Ho'. apply Hpend. by right.
    + intros o' sts' [= <- <-]. apply Hpend. by left.
Qed.

Lemma from_programs_run programs schedule : ∀ sys sys' : system F,
  from_programs programs sys → run schedule sys = Some sys' →
  from_programs programs sys'.
Proof.
  induction schedule as [|t rest IH]; intros sys sys' Hc Hrun; simpl in Hrun.
  - by injection Hrun as <-.
  - destruct (step t sys) as [mid|] eqn:Hstep; [simpl in Hrun|done].
    eapply IH; [|done]. by eapply from_programs_step.
Qed.

(** C9: under any interleaving of any number of session threads, the
    statements that change the record and the reads of a snapshot exclude
    each other: at most one thread is inside a [with self._stats_lock]
    block.  Every snapshot a [stats] call has returned is the snapshot of
    the record after a whole number of completed calls, each taken from a
    session's program, and whenever the lock is free the record is the
    result of the completed calls. *)
Theorem snapshots_see_whole_updates
    (programs : list (list (stats_op F))) (schedule : list nat)
    (sys : system F) :
  run schedule (initial programs) = Some sys →
  (∀ snap, snap ∈ observed sys → whole_state (completed sys) snap)
  ∧ (∀ o, o ∈ completed sys → ∃ p, p ∈ programs ∧ o ∈ p)
  ∧ (∀ t1 t2 th1 th2,
       threads sys !! t1 = Some th1 → threads sys !! t2 = Some th2 →
       ¬ outside th1 → ¬ outside th2 → t1 = t2)
  ∧ (locked sys = false →
     shared sys = apply_ops (completed sys) new_stats).
Proof.
  intros Hrun.
  pose proof (consistent_run schedule _ _ (consistent_initial programs) Hrun)
    as Hc.
  pose proof (from_programs_run programs schedule _ _
                (from_programs_initial programs) Hrun) as [Hp _].
  split; [|split; [done|split]].
  - destruct Hc as [Hobs _]. by apply Forall_forall.
  - intros t1 t2 th1 th2 H1 H2 Hin1 Hin2.
    destruct (in_block th1) as [[o1 sts1]|] eqn:E1; [|done].
    destruct (consistent_inside sys t1 th1 o1 sts1 Hc H1 E1)
      as (_ & _ & _ & _ & Ho).
    destruct (decide (t2 = t1)) as [->|Hne]; [done|].
    exfalso. apply Hin2. by eapply Ho.
  - intros Hl. destruct Hc as [_ Hlock]. rewrite Hl in Hlock. by destruct Hlock.
Qed.

End Exclusion.

(** *** Two sessions under one schedule *)

Section ExclusionExample.
Import Server Binary64.

Lemma two_sessions_snapshot :
  ∃ sys : system float,
    run two_sessions_schedule (initial two_sessions) = Some sys
    ∧ (∀ snap, snap ∈ observed sys → whole_state (completed sys) snap)
    ∧ (∀ o, o ∈ completed sys → ∃ p, p ∈ two_sessions ∧ o ∈ p)
    ∧ (∀ t1 t2 th1 th2,
         threads sys !! t1 = Some th1 → threads sys !! t2 = Some th2 →
         ¬ outside th1 → ¬ outside th2 → t1 = t2)
    ∧ (locked sys = false →
       shared sys = apply_ops (completed sys) new_stats).
Proof.
  eexists. split; [vm_compute; reflexivity|].
  apply (snapshots_see_whole_updates two_sessions two_sessions_schedule).
  vm_compute. reflexivity.
Defined.

(** The snapshot the first session got: both updates, whole. *)
Example two_sessions_observed :
  observed <$> run two_sessions_schedule (initial two_sessions)
  = Some [ {| snap_total_requests := 2; snap_prime_checks := 1;
              snap_range_requests := 1; snap_range_counts := 0;
              average_duration_sec := 0.375%float;
              max_duration_sec := 0.5%float;
              snap_active_clients := 0; snap_completed_clients := 0;
              snap_last_error := None |} ].
Proof. vm_compute. reflexivity. Qed.

(** While the first session is inside [_update_stats] the second cannot
    enter its own block. *)
Example two_sessions_blocked :
  run [0; 0; 1]%nat (initial two_sessions) = None.
Proof. vm_compute. reflexivity. Qed.

End ExclusionExample.

(** ** The test suite and the scenarios of the interface description *)

Section Scenarios.
Import Tasks Server Binary64.

Example test_is_prime_small_values :
  is_prime <$> [0; 1; 2; 3; 4]
  = [Some false; Some false; Some true; Some true; Some false].
Proof. reflexivity. Qed.

Example test_primes_in_range :
  primes_in_range 1 10 = Some [2; 3; 5; 7]
  ∧ primes_in_range 10 1 = Some [2; 3; 5; 7].
Proof. split; reflexivity. Qed.

Example test_count_primes :
  count_primes 1 10 = Some 4 ∧ count_primes 10 20 = Some 4.
Proof. split; reflexivity. Qed.

Example is_prime_wheel_values :
  is_prime <$> [25; 49; 97; 121; 104729; -7]
  = [Some false; Some false; Some true; Some false; Some true; Some false].
Proof. vm_compute. reflexivity. Qed.

Example scenario_prime_17 :
  fst <$> execute_prime 1%float 1.5%float 17 new_stats
  = Some {| pp_number := 17; pp_is_prime := true |}.
Proof. vm_compute. reflexivity. Qed.

Example scenario_range_1_10 :
  fst <$> execute_range 1%float 1.5%float 1 10 new_stats
  = Some {| rp_start := 1; rp_end := 10; rp_count := 4;
            rp_primes := [2; 3; 5; 7]; rp_truncated := false;
            rp_duration_sec := 0.5%float |}.
Proof. vm_compute. reflexivity. Qed.

(** There are 303 primes up to 2000: the payload keeps the count and the
    first 200 of them. *)
Example scenario_range_truncated :
  (λ r, (rp_count (fst r), length (rp_primes (fst r)),
         last (rp_primes (fst r)), rp_truncated (fst r)))
    <$> execute_range 1%float 1.5%float 1 2000 new_stats
  = Some (303, 200%nat, Some 1223, true).
Proof. vm_compute. reflexivity. Qed.

End Scenarios.

(** * More properties *)

(** ** tasks.py: counting and splitting ranges *)

Section Ranges.
Import Tasks.

Lemma primes_in_range_ordered a b :
  a ≤ b → primes_in_range a b = Some (filter Z.prime (seqZ a (b + 1 - a))).
Proof.
  intros Hab. rewrite primes_in_range_filter.
  by rewrite Z.min_l, Z.max_r by done.
Qed.

Lemma count_primes_filter a b :
  count_primes a b
  = Some (Z.of_nat (length
      (filter Z.prime (seqZ (Z.min a b) (Z.max a b + 1 - Z.min a b))))).
Proof. by rewrite count_primes_length, primes_in_range_filter. Qed.

(** X1: [count_primes(a, b)] always returns; the count is the same for
    [(b, a)], lies between 0 and the number of integers of the interval,
    and is 0 exactly when the interval holds no prime. *)
Theorem count_primes_bounds (a b : Z) :
  ∃ n : Z,
    count_primes a b = Some n
    ∧ count_primes b a = Some n
    ∧ 0 ≤ n ≤ Z.max a b - Z.min a b + 1
    ∧ (n = 0 ↔ ∀ p, Z.min a b ≤ p ≤ Z.max a b → ¬ Z.prime p).
Proof.
  eexists. split; [apply count_primes_filter|]. split; [|split].
  - rewrite count_primes_filter. by rewrite Z.min_comm, Z.max_comm.
  - pose proof (length_filter Z.prime
      (seqZ (Z.min a b) (Z.max a b + 1 - Z.min a b))) as Hlen.
    rewrite length_seqZ in Hlen. lia.
  - set (l := seqZ _ _). split.
    + intros Hn p Hp Hprime.
      assert (Hin : p ∈ filter Z.prime l).
      { apply list_elem_of_filter. split; [done|].
        apply elem_of_seqZ. lia. }
      destruct (filter Z.prime l); [by apply elem_of_nil in Hin|].
      simpl in Hn. lia.
    + intros Hnone. destruct (filter Z.prime l) as [|p rest] eqn:E; [done|].
      exfalso. assert (Hin : p ∈ filter Z.prime l) by (rewrite E; by left).
      apply list_elem_of_filter in Hin as [Hprime Hin].
      apply elem_of_seqZ in Hin. apply (Hnone p); [lia|done].
Qed.

(** X2: for [a <= b < c] the primes of [a..c] are the primes of [a..b]
    followed by those of [b+1..c], and the counts add up. *)
Theorem primes_in_range_split (a b c : Z) :
  a ≤ b → b < c →
  ∃ low high,
    primes_in_range a b = Some low
    ∧ primes_in_range (b + 1) c = Some high
    ∧ primes_in_range a c = Some (low ++ high)
    ∧ count_primes a c
      = Some (Z.of_nat (length low) + Z.of_nat (length high)).
Proof.
  intros Hab Hbc. eexists _, _.
  split; [by apply primes_in_range_ordered|].
  split; [apply primes_in_range_ordered; lia|].
  assert (Hsplit : primes_in_range a c
    = Some (filter Z.prime (seqZ a (b + 1 - a))
            ++ filter Z.prime (seqZ (b + 1) (c + 1 - (b + 1))))).
  { rewrite primes_in_range_ordered by lia. rewrite <- filter_app. do 2 f_equal.
    replace (c + 1 - a) with ((b + 1 - a) + (c + 1 - (b + 1))) by lia.
    rewrite seqZ_app by lia. do 2 f_equal. lia. }
  split; [done|].
  rewrite count_primes_length, Hsplit. simpl.
  by rewrite length_app, Nat2Z.inj_add.
Qed.

Lemma primes_in_range_split_1_10_20 :
  1 ≤ 10 ∧ 10 < 20
  ∧ ∃ low high,
      primes_in_range 1 10 = Some low
      ∧ primes_in_range (10 + 1) 20 = Some high
      ∧ primes_in_range 1 20 = Some (low ++ high)
      ∧ count_primes 1 20
        = Some (Z.of_nat (length low) + Z.of_nat (length high)).
Proof.
  split; [lia|]. split; [lia|].
  apply (primes_in_range_split 1 10 20); lia.
Defined.

End Ranges.

(** ** server.py: what the range and count calls return *)

Section Payloads.
Context {F : Type} `{PyFloat F}.
Import Server.

(** X3: the [primes] field of [execute_range] never has more than 200
    entries; it is a prefix of the whole list, so its entries are primes in
    ascending order, and it is the whole list when [truncated] is false. *)
Theorem execute_range_primes_bounded (started finished : F) (start end_ : Z)
    (s : ServerStats F) :
  ∃ primes payload s',
    Tasks.primes_in_range start end_ = Some primes
    ∧ execute_range started finished start end_ s = Some (payload, s')
    ∧ (length (rp_primes payload) ≤ 200)%nat
    ∧ rp_primes payload `prefix_of` primes
    ∧ Forall Z.prime (rp_primes payload)
    ∧ StronglySorted Z.lt (rp_primes payload)
    ∧ (rp_truncated payload = false ↔ rp_primes payload = primes).
Proof.
  unfold execute_range. rewrite primes_in_range_filter. simpl.
  eexists _, _, _. split; [done|]. split; [done|]. simpl.
  set (primes := filter Z.prime _).
  assert (Hprimes : Forall Z.prime primes).
  { apply Forall_forall. by intros p [Hp _]%list_elem_of_filter. }
  assert (Hsorted : StronglySorted Z.lt primes).
  { apply StronglySorted_filter, StronglySorted_seqZ. }
  destruct (Z.leb_spec (Z.of_nat (length primes)) 200) as [Hle|Hgt].
  - split; [lia|]. split; [done|]. split; [done|]. split; [done|].
    split; [done|]. intros _. destruct (Z.gtb_spec (Z.of_nat (length primes)) 200); [lia|done].
  - assert (Htake : take 200 primes `prefix_of` primes).
    { exists (drop 200 primes). by rewrite take_drop. }
    split; [rewrite length_take; lia|]. split; [done|].
    split; [by apply Forall_take|].
    split.
    { destruct Htake as [k Hk]. rewrite Hk in Hsorted.
      by apply StronglySorted_app_1_l in Hsorted. }
    split.
    + destruct (Z.gtb_spec (Z.of_nat (length primes)) 200); [done|lia].
    + intros Heq. apply (f_equal length) in Heq.
      rewrite length_take in Heq. lia.
Qed.

(** X4: for the same bounds in either order, [execute_count] reports the
    [count] that [execute_range] reports, whether or not the range's list
    is truncated. *)
Theorem execute_count_agrees (started finished : F) (start end_ : Z)
    (s : ServerStats F) :
  ∃ counted listed swapped s1 s2 s3,
    execute_count started finished start end_ s = Some (counted, s1)
    ∧ execute_range started finished start end_ s = Some (listed, s2)
    ∧ execute_count started finished end_ start s = Some (swapped, s3)
    ∧ cp_count counted = rp_count listed
    ∧ cp_count swapped = cp_count counted.
Proof.
  unfold execute_count, execute_range.
  rewrite !count_primes_filter, primes_in_range_filter. simpl.
  eexists _, _, _, _, _, _. split; [done|]. split; [done|]. split; [done|].
  simpl. split; [done|]. by rewrite Z.min_comm, Z.max_comm.
Qed.

End Payloads.

(** ** server.py: what the counters count *)

Section Counting.
Context {F : Type} `{PyFloat F}.
Import Server.

Lemma how_many_cons (kind : call F → bool) c calls :
  how_many kind (c :: calls)
  = (if kind c then 1 else 0) + how_many kind calls.
Proof.
  unfold how_many. rewrite filter_cons.
  destruct (kind c); simpl; [|done]. lia.
Qed.

Lemma final_cons (s s' : ServerStats F) states :
  final s (s' :: states) = final s' states.
Proof.
  unfold final. revert s s'.
  induction states as [|s2 states IH]; intros s s'; [done|].
  change (last (s' :: s2 :: states)) with (last (s2 :: states)).
  by rewrite (IH s s2), (IH s' s2).
Qed.

Lemma register_duration_fields duration (s : ServerStats F) :
  cumulative_duration (register_duration duration s)
  = f_add (cumulative_duration s) duration
  ∧ (max_duration (register_duration duration s) = duration
     ∨ max_duration (register_duration duration s) = max_duration s)
  ∧ active_clients (register_duration duration s) = active_clients s
  ∧ completed_clients (register_duration duration s) = completed_clients s
  ∧ last_error (register_duration duration s) = last_error s.
Proof.
  unfold register_duration.
  destruct (f_gtb duration (max_duration s)); simpl; auto.
Qed.

(** What one call leaves of the durations and of the fields the sessions
    own. *)
Lemma perform_durations (c : call F) (s : ServerStats F) :
  ∃ r s', perform c s = Some (r, s')
    ∧ cumulative_duration s'
      = from_option (f_add (cumulative_duration s)) (cumulative_duration s)
          (call_duration c)
    ∧ (max_duration s' = max_duration s
       ∨ call_duration c = Some (max_duration s'))
    ∧ active_clients s' = active_clients s
    ∧ completed_clients s' = completed_clients s
    ∧ last_error s' = last_error s.
Proof.
  destruct c as [started finished number | started finished a b
                | started finished a b |]; simpl.
  - unfold execute_prime. rewrite is_prime_decide. simpl.
    eexists _, _. split; [done|]. unfold _update_stats.
    match goal with |- context [register_duration ?d ?s0] =>
      destruct (register_duration_fields d s0) as (-> & [->| ->] & -> & -> & ->)
    end; simpl; auto 10.
  - unfold execute_range. rewrite primes_in_range_filter. simpl.
    eexists _, _. split; [done|]. unfold _update_stats.
    match goal with |- context [register_duration ?d ?s0] =>
      destruct (register_duration_fields d s0) as (-> & [->| ->] & -> & -> & ->)
    end; simpl; auto 10.
  - unfold execute_count. rewrite count_primes_filter. simpl.
    eexists _, _. split; [done|]. unfold _update_stats.
    match goal with |- context [register_duration ?d ?s0] =>
      destruct (register_duration_fields d s0) as (-> & [->| ->] & -> & -> & ->)
    end; simpl; auto 10.
  - eexists _, _. split; [done|]. auto 10.
Qed.

Lemma perform_all_counts (calls : list (call F)) : ∀ s : ServerStats F,
  ∃ states, perform_all calls s = Some states
    ∧ total_requests (final s states)
      = total_requests s + how_many is_prime_call calls
        + how_many is_range_call calls + how_many is_count_call calls
    ∧ prime_checks (final s states)
      = prime_checks s + how_many is_prime_call calls
    ∧ range_requests (final s states)
      = range_requests s + how_many is_range_call calls
    ∧ range_counts (final s states)
      = range_counts s + how_many is_count_call calls.
Proof.
  induction calls as [|c calls IH]; intros s; simpl.
  - exists []. unfold final, how_many. simpl. repeat split; lia.
  - destruct (perform_counters c s) as (r & s' & -> & Hstep). simpl.
    destruct (IH s') as (states & -> & Ht & Hp & Hr & Hc). simpl.
    exists (s' :: states). split; [done|].
    rewrite final_cons, !how_many_cons, Ht, Hp, Hr, Hc.
    destruct c; simpl in *; [| | |subst s']; repeat split; lia.
Qed.

(** X5: after any sequence of calls from the all-zero record, each of
    [prime_checks], [range_requests] and [range_counts] is the number of
    calls of its kind, and [total_requests] is the number of calls that are
    not [stats]. *)
Theorem counters_count_calls (calls : list (call F)) :
  ∃ states, perform_all calls new_stats = Some states
    ∧ prime_checks (final new_stats states) = how_many is_prime_call calls
    ∧ range_requests (final new_stats states) = how_many is_range_call calls
    ∧ range_counts (final new_stats states) = how_many is_count_call calls
    ∧ total_requests (final new_stats states)
      = Z.of_nat (length calls)
        - how_many is_stats_call calls.
Proof.
  destruct (perform_all_counts calls new_stats)
    as (states & -> & Ht & Hp & Hr & Hc).
  exists states. split; [done|]. simpl in *.
  split; [lia|]. split; [lia|]. split; [lia|]. rewrite Ht.
  clear. induction calls as [|c calls IH]; [done|].
  rewrite !how_many_cons. simpl length. destruct c; simpl; lia.
Qed.

Lemma perform_all_durations (calls : list (call F)) : ∀ s : ServerStats F,
  ∃ states, perform_all calls s = Some states
    ∧ cumulative_duration (final s states)
      = foldl f_add (cumulative_duration s) (durations calls)
    ∧ Forall (λ s', max_duration s' ∈ max_duration s :: durations calls) states
    ∧ Forall (λ s', active_clients s' = active_clients s
                    ∧ completed_clients s' = completed_clients s
                    ∧ last_error s' = last_error s) states.
Proof.
  induction calls as [|c calls IH]; intros s; simpl.
  - exists []. by repeat split.
  - destruct (perform_durations c s)
      as (r & s' & -> & Hcum & Hmax & Ha & Hc & He). simpl.
    destruct (IH s') as (states & -> & Hcums & Hmaxs & Hrest). simpl.
    exists (s' :: states). split; [done|]. rewrite final_cons, Hcums.
    unfold durations. simpl. fold (durations calls).
    split; [|split].
    + rewrite Hcum. by destruct (call_duration c).
    + constructor.
      * destruct Hmax as [->|Hd]; [by left|]. rewrite Hd. right. by left.
      * eapply Forall_impl; [exact Hmaxs|]. simpl. intros s2 Hin.
        apply elem_of_cons in Hin as [->|Hin].
        -- destruct Hmax as [->|Hd]; [by left|]. rewrite Hd. right. by left.
        -- right. destruct (call_duration c); [by right|done].
    + constructor; [done|]. eapply Forall_impl; [exact Hrest|]. simpl.
      intros s2 (E1 & E2 & E3). by rewrite E1, E2, E3.
Qed.

(** X6: along any sequence of calls from the all-zero record,
    [cumulative_duration] ends as the sum, in call order, of the durations
    measured; [max_duration] is at every point [0.0] or one of those
    durations; and no call changes [active_clients], [completed_clients]
    or [last_error]. *)
Theorem durations_recorded (calls : list (call F)) :
  ∃ states, perform_all calls new_stats = Some states
    ∧ cumulative_duration (final new_stats states)
      = foldl f_add f_zero (durations calls)
    ∧ Forall (λ s, max_duration s ∈ f_zero :: durations calls) states
    ∧ Forall (λ s, active_clients s = 0 ∧ completed_clients s = 0
                   ∧ last_error s = None) states.
Proof. apply (perform_all_durations calls new_stats). Qed.

(** X7: a duration that has been registered is not greater than the
    maximum recorded, for a duration that is not greater than itself. *)
Theorem register_duration_covers (duration : F) (s : ServerStats F) :
  f_gtb duration duration = false →
  f_gtb duration (max_duration (register_duration duration s)) = false.
Proof.
  intros Hirr. unfold register_duration.
  by destruct (f_gtb duration (max_duration s)) eqn:E.
Qed.


End Counting.

(** ** server.py: the counters seen by concurrent sessions *)

Section SnapshotCounters.
Context {F : Type} `{PyFloat F}.
Import Server.

Lemma apply_op_agree (o : stats_op F) (s : ServerStats F) :
  (∀ command duration, o = OpUpdate command duration →
     counted_command command) →
  counters_agree s → counters_agree (apply_op o s).
Proof.
  intros Hcmd Hs. destruct o as [command duration| | | |]; simpl; try done.
  destruct (Hcmd command duration eq_refl) as [->|[->| ->]].
  - eapply counters_step_agree; [done|apply update_stats_prime].
  - eapply counters_step_agree; [done|apply update_stats_range].
  - eapply counters_step_agree; [done|apply update_stats_count].
Qed.

Lemma apply_ops_agree (ops : list (stats_op F)) (s : ServerStats F) :
  (∀ command duration, OpUpdate command duration ∈ ops →
     counted_command command) →
  counters_agree s → counters_agree (apply_ops ops s).
Proof.
  induction ops as [|o ops IH] using rev_ind; intros Hcmd Hs; [done|].
  rewrite apply_ops_snoc. apply apply_op_agree.
  - intros command duration ->. apply (Hcmd command duration).
    apply elem_of_app. right. by left.
  - apply IH; [|done]. intros command duration Hin.
    apply (Hcmd command duration). apply elem_of_app. by left.
Qed.

(** X9: when the sessions call [_update_stats] under the names [prime],
    [range] and [count] only, as the dispatcher does, every snapshot that a
    [stats] call returns, under any interleaving of the sessions, has
    [total_requests == prime_checks + range_requests + range_counts]. *)
Theorem snapshots_counters_agree
    (programs : list (list (stats_op F))) (schedule : list nat)
    (sys : system F) :
  run schedule (initial programs) = Some sys →
  (∀ p command duration,
     p ∈ programs → OpUpdate command duration ∈ p →
     counted_command command) →
  ∀ snap, snap ∈ observed sys →
    snap_total_requests snap
    = snap_prime_checks snap + snap_range_requests snap
      + snap_range_counts snap.
Proof.
  intros Hrun Hcmd snap Hsnap.
  pose proof (consistent_run schedule _ _ (consistent_initial programs) Hrun)
    as [Hobs _].
  pose proof (from_programs_run programs schedule _ _
                (from_programs_initial programs) Hrun) as [Hdone _].
  rewrite Forall_forall in Hobs.
  destruct (Hobs snap Hsnap) as (before & [after Hpre] & ->). simpl.
  apply (apply_ops_agree before new_stats); [|done].
  intros command duration Hin.
  destruct (Hdone (OpUpdate command duration)) as (p & Hp & Hop).
  { rewrite Hpre. apply elem_of_app. by left. }
  by apply (Hcmd p command duration).
Qed.

End SnapshotCounters.

Section SnapshotCountersExample.
Import Server Binary64.

Lemma two_sessions_counters_agree :
  ∃ sys : system float,
    run two_sessions_schedule (initial two_sessions) = Some sys
    ∧ observed sys ≠ []
    ∧ ∀ snap, snap ∈ observed sys →
        snap_total_requests snap
        = snap_prime_checks snap + snap_range_requests snap
          + snap_range_counts snap.
Proof.
  eexists. split; [vm_compute; reflexivity|]. split; [done|].
  apply (snapshots_counters_agree two_sessions two_sessions_schedule).
  - vm_compute. reflexivity.
  - intros p command duration Hp Hop. unfold counted_command.
    repeat (apply elem_of_cons in Hp as [->|Hp]);
      [| |by apply elem_of_nil in Hp];
      repeat (apply elem_of_cons in Hop as [Hop|Hop]);
      try done; try (by apply elem_of_nil in Hop);
      injection Hop as -> _; auto.
Defined.

Lemma register_duration_covers_half :
  f_gtb 0.5%float 0.5%float = false
  ∧ f_gtb 0.5%float
      (max_duration (register_duration 0.5%float new_stats)) = false.
Proof.
  split; [reflexivity|].
  apply (register_duration_covers 0.5%float new_stats). reflexivity.
Defined.


End SnapshotCountersExample.

(** ** protocol.py: what the round trip does to a message *)

Section RoundTrip.
Context `{Protocol.JsonLib} `{Protocol.JsonFailure} `{Protocol.PyLower}.
Import Protocol.

Lemma from_wire_to_wire_lower (m : Message) :
  json_loads (to_wire m) = Some (wire_payload m) →
  from_wire (to_wire m)
  = Ok {| command := str_lower (command m); data := data m |}.
Proof.
  intros Hjson.
  pose proof (from_wire_object (to_wire m) _ Hjson) as Hw.
  rewrite lookup_insert_eq in Hw.
  by rewrite lookup_insert_ne, lookup_singleton_eq in Hw by done.
Qed.

(** X10: wherever the [json] module reads back the payload it wrote,
    decoding the line of any message gives the message with
    [command.lower()] for its command and its data as it was; so the
    message comes back unchanged exactly when [str.lower] leaves its
    command as it is. *)
Theorem wire_round_trip_lowers (m : Message) :
  json_loads (to_wire m) = Some (wire_payload m) →
  from_wire (to_wire m)
  = Ok {| command := str_lower (command m); data := data m |}
  ∧ (from_wire (to_wire m) = Ok m ↔ str_lower (command m) = command m).
Proof.
  intros Hjson. rewrite from_wire_to_wire_lower by done.
  split; [done|]. destruct m as [c d]. simpl. split.
  - by intros [= ->].
  - by intros ->.
Qed.

End RoundTrip.

(** ** protocol.py and client.py: a response as the client reads it *)

Section Listening.
Context `{Protocol.JsonLib} `{Protocol.JsonFailure} `{PyText}.
Import Protocol Responses Client.

(** X11: wherever the line decodes as itself and the [json] module reads
    back the object it wrote, the listener of the client shows the
    [status] and the [payload] that [encode_response] was given. *)
Theorem listen_encode_response (payload : gmap string JSON)
    (status : string) :
  bytes_decode (encode_response payload status)
  = inl (encode_response payload status) →
  json_loads (encode_response payload status)
  = Some (response_object payload status) →
  listen (encode_response payload status)
  = Shown (JString status) (JObject payload).
Proof.
  intros Hdecode Hjson.
  unfold listen. rewrite Hdecode, Hjson. unfold response_object, dict_get.
  rewrite lookup_insert_eq.
  by rewrite lookup_insert_ne, lookup_singleton_eq by done.
Qed.

End Listening.

(** ** server.py: _dispatch_command *)

Section Dispatching.
Context `{PyFloat float}.
Import Protocol Server Handler.

Lemma require_int_ok data key v :
  _require_int data key = Ok v →
  data !! key = Some v ∧ ∃ n, int_value v = Some n.
Proof.
  pose proof (require_int_cases data key) as Hc.
  destruct (data !! key) as [[]|]; rewrite Hc; intros [= <-];
    (split; [done|]); simpl; eauto.
Qed.

Lemma require_int_raise data key e :
  _require_int data key = Raise e →
  e = field_error key ∧ isinstance_int (dict_get data key) = false.
Proof.
  unfold _require_int, field_error.
  destruct (isinstance_int (dict_get data key)); simpl; [done|].
  by intros [= <-].
Qed.

Lemma execute_prime_result started finished n (s : ServerStats float) :
  execute_prime started finished n s
  = Some ({| pp_number := n; pp_is_prime := bool_decide (Z.prime n) |},
          _update_stats "prime" (f_sub finished started) s).
Proof. unfold execute_prime. by rewrite is_prime_decide. Qed.

Lemma execute_range_some started finished a b (s : ServerStats float) :
  ∃ p, execute_range started finished a b s
       = Some (p, _update_stats "range" (f_sub finished started) s).
Proof.
  unfold execute_range. rewrite primes_in_range_filter. simpl. by eexists.
Qed.

Lemma execute_count_some started finished a b (s : ServerStats float) :
  ∃ p, execute_count started finished a b s
       = Some (p, _update_stats "count" (f_sub finished started) s).
Proof.
  unfold execute_count. rewrite count_primes_filter. simpl. by eexists.
Qed.

Lemma dispatch_dispatched started finished message (s : ServerStats float) :
  ∃ r s', _dispatch_command started finished message s = Some (r, s')
    ∧ dispatched started finished message s r s'.
Proof.
  unfold _dispatch_command, dispatched, counted_command.
  destruct (String.eqb_spec (command message) "prime") as [Ec|Np].
  { rewrite Ec.
    destruct (_require_int (data message) "number") as [v|e] eqn:Er.
    - apply require_int_ok in Er as [_ [n ->]]. simpl.
      rewrite execute_prime_result. simpl. eexists _, _. split; [done|].
      right. auto.
    - apply require_int_raise in Er as [-> Hi]. eexists _, _.
      split; [done|]. split; [done|]. right. eauto 10. }
  destruct (String.eqb_spec (command message) "range") as [Ec|Nr].
  { rewrite Ec.
    destruct (_require_int (data message) "start") as [v|e] eqn:Er.
    2:{ apply require_int_raise in Er as [-> Hi]. eexists _, _.
        split; [done|]. split; [done|]. right. eauto 10. }
    destruct (_require_int (data message) "end") as [w|e] eqn:Er2.
    2:{ apply require_int_raise in Er2 as [-> Hi]. eexists _, _.
        split; [done|]. split; [done|]. right. eauto 10. }
    apply require_int_ok in Er as [_ [a ->]].
    apply require_int_ok in Er2 as [_ [b ->]]. simpl.
    destruct (execute_range_some started finished a b s) as [p ->]. simpl.
    eexists _, _. split; [done|]. right. auto. }
  destruct (String.eqb_spec (command message) "count") as [Ec|Nc].
  { rewrite Ec.
    destruct (_require_int (data message) "start") as [v|e] eqn:Er.
    2:{ apply require_int_raise in Er as [-> Hi]. eexists _, _.
        split; [done|]. split; [done|]. right. eauto 10. }
    destruct (_require_int (data message) "end") as [w|e] eqn:Er2.
    2:{ apply require_int_raise in Er2 as [-> Hi]. eexists _, _.
        split; [done|]. split; [done|]. right. eauto 10. }
    apply require_int_ok in Er as [_ [a ->]].
    apply require_int_ok in Er2 as [_ [b ->]]. simpl.
    destruct (execute_count_some started finished a b s) as [p ->]. simpl.
    eexists _, _. split; [done|]. right. auto. }
  destruct (String.eqb_spec (command message) "stats") as [Ec|Ns].
  { simpl. eexists _, _. split; [done|]. by left. }
  eexists _, _. split; [done|]. split; [done|]. left.
  split; [done|]. split; [|done]. intros [?|[?|?]]; done.
Qed.

Lemma dispatched_agree started finished message (s s' : ServerStats float) r :
  dispatched started finished message s r s' →
  counters_agree s → counters_agree s'.
Proof.
  unfold dispatched. intros Hd Hs. destruct r as [payload|e].
  - destruct Hd as [[_ ->]|[Hc ->]]; [done|].
    destruct Hc as [->|[->| ->]].
    + eapply counters_step_agree; [done|apply update_stats_prime].
    + eapply counters_step_agree; [done|apply update_stats_range].
    + eapply counters_step_agree; [done|apply update_stats_count].
  - by destruct Hd as [-> _].
Qed.

(** X12: [_dispatch_command] always comes to a result.  When it raises,
    the statistics are as they were, and the error is either
    [unknown command: <command>], for a command that is none of [prime],
    [range], [count] and [stats], or [field '<key>' must be an integer]
    for a field of the data that holds no [int].  When it returns, the
    statistics are as they were for [stats], and otherwise hold one more
    request, recorded under the command's own name.  Either way counters
    that add up still add up. *)
Theorem dispatch_command_effects (started finished : float)
    (message : Message) (s : ServerStats float) :
  ∃ r s', _dispatch_command started finished message s = Some (r, s')
    ∧ dispatched started finished message s r s'
    ∧ (counters_agree s → counters_agree s').
Proof.
  destruct (dispatch_dispatched started finished message s)
    as (r & s' & Hrun & Hd).
  exists r, s'. split; [done|]. split; [done|].
  by apply (dispatched_agree started finished message s s' r).
Qed.

(** X13: for a [prime] message whose [number] is an integer [n], the
    payload is [{"number": n, "is_prime": b}] with [b] true exactly when
    [n] is prime, and the request is recorded under [prime]. *)
Theorem dispatch_prime_correct (started finished : float) (message : Message)
    (n : Z) (s : ServerStats float) :
  command message = "prime" →
  data message !! "number" = Some (JInt n) →
  _dispatch_command started finished message s
  = Some (Ok {[ "number" := JInt n;
                "is_prime" := JBool (bool_decide (Z.prime n)) ]},
          _update_stats "prime" (f_sub finished started) s).
Proof.
  intros Hc Hn. unfold _dispatch_command. rewrite Hc. simpl.
  pose proof (require_int_cases (data message) "number") as Hr.
  rewrite Hn in Hr. rewrite Hr. simpl.
  by rewrite execute_prime_result.
Qed.

(** X14: for a [range] or [count] message whose [start] and [end] are
    integers [a] and [b], in either order, the payload echoes them, its
    [count] is the number of primes from [min(a, b)] to [max(a, b)], and
    for [range] its [primes] are the first 200 of them in ascending order
    with [truncated] telling whether there are more. *)
Theorem dispatch_range_count_correct (started finished : float)
    (fields : gmap string JSON) (a b : Z) (s : ServerStats float) :
  fields !! "start" = Some (JInt a) →
  fields !! "end" = Some (JInt b) →
  let primes :=
    filter Z.prime (seqZ (Z.min a b) (Z.max a b + 1 - Z.min a b)) in
  let count := Z.of_nat (length primes) in
  let duration := f_sub finished started in
  _dispatch_command started finished
    {| command := "range"; data := fields |} s
  = Some (Ok {[ "start" := JInt a;
                "end" := JInt b;
                "count" := JInt count;
                "primes" := JArray (JInt <$> take 200 primes);
                "truncated" := JBool (bool_decide (count > 200));
                "duration_sec" := JFloat (f_round duration 6) ]},
          _update_stats "range" duration s)
  ∧ _dispatch_command started finished
      {| command := "count"; data := fields |} s
    = Some (Ok {[ "start" := JInt a;
                  "end" := JInt b;
                  "count" := JInt count;
                  "duration_sec" := JFloat (f_round duration 6) ]},
            _update_stats "count" duration s).
Proof.
  intros Ha Hb primes count duration.
  pose proof (require_int_cases fields "start") as Hra. rewrite Ha in Hra.
  pose proof (require_int_cases fields "end") as Hrb. rewrite Hb in Hrb.
  unfold _dispatch_command. simpl. rewrite Hra, Hrb. simpl.
  unfold execute_range, execute_count.
  rewrite count_primes_filter, primes_in_range_filter. simpl.
  fold primes. fold count. fold duration. split; [|done].
  do 2 f_equal. unfold range_dict. simpl. do 2 f_equal.
  assert (Htake : (if count <=? 200 then primes else take 200 primes)
                  = take 200 primes).
  { destruct (Z.leb_spec count 200); [|done].
    symmetry. apply take_ge. unfold count in *. lia. }
  assert (Htrunc : (count >? 200) = bool_decide (count > 200)).
  { destruct (Z.gtb_spec count 200).
    - by rewrite bool_decide_eq_true_2 by lia.
    - by rewrite bool_decide_eq_false_2 by lia. }
  by rewrite Htake, Htrunc.
Qed.

End Dispatching.

(** ** server.py: the body of the session loop *)

Section Serving.
Context `{PyFloat float} `{Protocol.JsonLib} `{Protocol.JsonFailure}
  `{Protocol.PyLower} `{PyText}.
Import Protocol Server Responses Handler.

Lemma update_stats_fields command duration (s : ServerStats float) :
  total_requests (_update_stats command duration s) = total_requests s + 1
  ∧ last_error (_update_stats command duration s) = last_error s.
Proof.
  unfold _update_stats.
  match goal with |- context [register_duration ?d ?s0] =>
    destruct (register_duration_counters d s0) as (-> & _);
    destruct (register_duration_fields d s0) as (_ & _ & _ & _ & ->)
  end.
  destruct (String.eqb command "prime"); [done|].
  destruct (String.eqb command "range"); [done|].
  by destruct (String.eqb command "count").
Qed.

(** The exception of [from_wire] that is no [ValueError] is one of
    [json.loads]. *)
Lemma from_wire_exception raw repr :
  from_wire raw = Raise (PyException repr) →
  json_loads raw = None ∧ json_loads_failure raw = OtherException repr.
Proof.
  unfold from_wire. destruct (json_loads raw) as [[]|]; try done.
  - destruct (dict_get _ "command"); try done.
    by destruct (dict_get _ "data").
  - destruct (json_loads_failure raw); try done. by intros [= ->].
Qed.

Lemma serve_line_served started finished raw (s : ServerStats float) :
  ∃ written s', serve_line started finished raw s = Some (written, s')
    ∧ served raw s written s'
    ∧ (counters_agree s → counters_agree s').
Proof.
  unfold serve_line, served.
  destruct (bytes_decode raw) as [line|text] eqn:Eraw.
  2:{ eexists _, _. split; [done|]. split; [right; left; eauto|done]. }
  destruct (from_wire (str_strip line)) as [message|e] eqn:Ewire.
  2:{ destruct e as [text|text|repr]; simpl;
        (eexists _, _; split; [done|]).
      - split; [right; left; eauto|done].
      - split; [right; left; eauto|done].
      - apply from_wire_exception in Ewire as [Eloads Efailure].
        split; [|done]. right. right. exists repr.
        split; [by exists line|done]. }
  destruct (dispatch_dispatched started finished message s)
    as (r & s' & -> & Hd). simpl.
  pose proof (dispatched_agree started finished message s s' r Hd) as Hagree.
  destruct r as [payload|e]; simpl in Hd.
  - eexists _, _. split; [done|]. split; [|done]. left. exists payload.
    split; [done|]. destruct Hd as [[_ ->]|[_ ->]]; [auto|].
    destruct (update_stats_fields (command message)
                (f_sub finished started) s) as [-> ->]. auto.
  - destruct Hd as [-> He].
    destruct He as [(-> & _)|(_ & key & -> & _)]; simpl;
      (eexists _, _; split; [done|]); (split; [|done]); right; left; eauto.
Qed.


Lemma served_total raw (s s' : ServerStats float) written :
  served raw s written s' →
  total_requests s ≤ total_requests s' ≤ total_requests s + 1.
Proof.
  intros [(payload & _ & _ & [->| ->])|[(text & _ & ->)|(repr & _ & _ & ->)]];
    simpl; lia.
Qed.

(** X16: whatever lines a session sends, malformed or not, each one gets
    its response and the lines after it are still served: there are as many
    responses as lines, [total_requests] grows by at most the number of
    lines, and counters that add up still add up at the end. *)
Theorem serve_lines_answers_each (lines : list (float * float * string))
    (s : ServerStats float) :
  ∃ written s', serve_lines lines s = Some (written, s')
    ∧ length written = length lines
    ∧ total_requests s ≤ total_requests s'
      ≤ total_requests s + Z.of_nat (length lines)
    ∧ (counters_agree s → counters_agree s').
Proof.
  revert s. induction lines as [|[[started finished] raw] lines IH];
    intros s; simpl.
  - eexists _, _. split; [done|]. split; [done|]. split; [lia|done].
  - destruct (serve_line_served started finished raw s)
      as (w & s1 & -> & Hserved & Hagree). simpl.
    apply served_total in Hserved.
    destruct (IH s1) as (ws & s2 & -> & Hlen & Htotal & Hagree2). simpl.
    eexists _, _. split; [done|]. simpl. split; [by rewrite Hlen|].
    split; [lia|]. auto.
Qed.

End Serving.

(** ** client.py: what the client sends is served *)

Section ClientToServer.
Context `{PyFloat float} `{Protocol.JsonLib} `{Protocol.JsonFailure}
  `{Protocol.PyLower} `{PyText}.
Import Protocol Server Responses Handler Client.

(** The messages [parse_user_input] builds. *)
Lemma parse_user_input_message raw m :
  parse_user_input raw = Return (Some m) →
  (∃ n, m = {| command := "prime"; data := {[ "number" := JInt n ]} |})
  ∨ (∃ a b, m = {| command := "range";
                   data := {[ "start" := JInt a; "end" := JInt b ]} |})
  ∨ (∃ a b, m = {| command := "count";
                   data := {[ "start" := JInt a; "end" := JInt b ]} |})
  ∨ m = {| command := "stats"; data := ∅ |}.
Proof.
  unfold parse_user_input.
  destruct (str_split (str_strip raw)) as [|first rest]; [done|].
  destruct (String.eqb (lower first) "quit" || String.eqb (lower first) "exit");
    [done|].
  destruct (String.eqb (lower first) "prime" && _).
  { destruct (int_of_str _); [|done]. intros [= <-]. left. by eexists. }
  destruct (String.eqb (lower first) "range" && _).
  { destruct (int_of_str _); [|done]. destruct (int_of_str _); [|done].
    intros [= <-]. right. left. by eexists _, _. }
  destruct (String.eqb (lower first) "count" && _).
  { destruct (int_of_str _); [|done]. destruct (int_of_str _); [|done].
    intros [= <-]. right. right. left. by eexists _, _. }
  destruct (String.eqb (lower first) "stats" && _); [|done].
  intros [= <-]. by repeat right.
Qed.

Lemma require_int_present (fields : gmap string JSON) key n :
  fields !! key = Some (JInt n) → _require_int fields key = Ok (JInt n).
Proof.
  intros Hk. pose proof (require_int_cases fields key) as Hr.
  by rewrite Hk in Hr.
Qed.

Lemma client_message_dispatched started finished raw m
    (s : ServerStats float) :
  parse_user_input raw = Return (Some m) →
  lower (command m) = command m
  ∧ ∃ payload s',
      _dispatch_command started finished m s = Some (Ok payload, s').
Proof.
  intros Hm. apply parse_user_input_message in Hm
    as [[n ->]|[(a & b & ->)|[(a & b & ->)| ->]]];
    (split; [done|]); unfold _dispatch_command; simpl.
  - rewrite (require_int_present _ "number" n) by apply lookup_singleton_eq.
    simpl. rewrite execute_prime_result. by eexists _, _.
  - rewrite (require_int_present _ "start" a) by apply lookup_insert_eq.
    rewrite (require_int_present _ "end" b)
      by (by rewrite lookup_insert_ne, lookup_singleton_eq).
    simpl. destruct (execute_range_some started finished a b s) as [p ->].
    by eexists _, _.
  - rewrite (require_int_present _ "start" a) by apply lookup_insert_eq.
    rewrite (require_int_present _ "end" b)
      by (by rewrite lookup_insert_ne, lookup_singleton_eq).
    simpl. destruct (execute_count_some started finished a b s) as [p ->].
    by eexists _, _.
  - by eexists _, _.
Qed.

(** The four commands are ASCII text in lower case, which [str.lower]
    leaves as it is. *)
Lemma client_message_str_lower raw m :
  parse_user_input raw = Return (Some m) →
  str_lower (command m) = command m.
Proof.
  intros Hm. apply parse_user_input_message in Hm
    as [[n ->]|[(a & b & ->)|[(a & b & ->)| ->]]]; simpl;
    by rewrite str_lower_ascii.
Qed.

(** X17: every message that [parse_user_input] builds from a line typed
    has one of the commands [prime], [range], [count] and [stats], in lower
    case, and [_dispatch_command] returns a payload for it: the client
    never sends a request that the server rejects as unknown or as lacking
    a field. *)
Theorem client_message_accepted (raw : string) (m : Message) :
  parse_user_input raw = Return (Some m) →
  (command m = "stats" ∨ counted_command (command m))
  ∧ lower (command m) = command m
  ∧ ∀ started finished (s : ServerStats float),
      ∃ payload s',
        _dispatch_command started finished m s = Some (Ok payload, s').
Proof.
  intros Hm. split.
  - unfold counted_command. apply parse_user_input_message in Hm
      as [[n ->]|[(a & b & ->)|[(a & b & ->)| ->]]]; simpl; auto.
  - split.
    + by destruct (client_message_dispatched 0%float 0%float raw m new_stats Hm).
    + intros started finished s.
      by destruct (client_message_dispatched started finished raw m s Hm).
Qed.

(** X18: from the line typed to the response written.  When the client
    sends a line for what was typed, and the server's decoding of that
    line, stripped, is what the [json] module was given to write, the
    server answers it with an [ok] response and [last_error] stays as it
    was. *)
Theorem client_line_answered_ok (raw line : string) (m : Message)
    (started finished : float) (s : ServerStats float) :
  parse_user_input raw = Return (Some m) →
  client_sends raw = Return (Some line) →
  bytes_decode line = inl line →
  json_loads (str_strip line) = Some (wire_payload m) →
  ∃ payload s',
    serve_line started finished line s
    = Some (encode_response payload "ok", s')
    ∧ last_error s' = last_error s.
Proof.
  intros Hm Hsends Hdecode Hjson.
  destruct (client_message_dispatched started finished raw m s Hm)
    as (_ & payload & s' & Hrun).
  pose proof (client_message_str_lower raw m Hm) as Hlow.
  unfold client_sends in Hsends. rewrite Hm in Hsends.
  injection Hsends as <-.
  pose proof (from_wire_object (str_strip (to_wire m)) _ Hjson) as Hw.
  rewrite lookup_insert_eq in Hw.
  rewrite lookup_insert_ne, lookup_singleton_eq in Hw by done.
  rewrite Hlow in Hw.
  unfold serve_line. rewrite Hdecode, Hw.
  replace {| command := command m; data := data m |} with m by by destruct m.
  rewrite Hrun. simpl. eexists _, _. split; [done|].
  destruct (dispatch_dispatched started finished m s) as (r & s2 & Hrun2 & Hd).
  rewrite Hrun in Hrun2. injection Hrun2 as <- <-. simpl in Hd.
  destruct Hd as [[_ ->]|[_ ->]]; [done|].
  by destruct (update_stats_fields (command m) (f_sub finished started) s).
Qed.

End ClientToServer.

(** ** server.py: the client counter under concurrent sessions *)

Section Registering.
Context {F : Type} `{PyFloat F}.
Import Server Registration.

(** The two blocks of [_register_client], one after the other, are the
    method. *)
Lemma register_client_blocks delta (srv : DistributedPrimeServer F) :
  _register_client delta srv
  = (fst (count_block delta srv),
     publish_block (fst (count_block delta srv))
       (snd (count_block delta srv))).
Proof. done. Qed.











Lemma run_app (l1 l2 : list nat) : ∀ st : sessions_state F,
  run (l1 ++ l2) st = run l1 st ≫= run l2.
Proof.
  induction l1 as [|t l1 IH]; intros st; simpl; [done|].
  destruct (step t st) as [mid|]; simpl; [apply IH|done].
Qed.

(** A session that runs alone, from its first block to its last, while no
    other session is open. *)
Lemma run_alone t (st : sessions_state F) :
  sessions st !! t = Some fresh → _client_counter (server st) = 0 →
  ∃ st', run (replicate 5 t) st = Some st'
    ∧ sessions st' = <[t := ended_session 1]> (sessions st)
    ∧ _client_counter (server st') = 0
    ∧ completed_clients (_dispatcher (server st'))
      = completed_clients (_dispatcher (server st)) + 1
    ∧ active_clients (_dispatcher (server st')) = 0.
Proof.
  intros Ht Hc. destruct st as [[disp counter] l]. simpl in *. subst counter.
  assert (Hlen : (t < length l)%nat) by by eapply lookup_lt_Some.
  unfold step. simpl. rewrite Ht. simpl.
  rewrite list_lookup_insert_eq by done. simpl.
  rewrite list_insert_insert_eq.
  rewrite list_lookup_insert_eq by done. simpl.
  rewrite list_insert_insert_eq.
  rewrite list_lookup_insert_eq by done. simpl.
  rewrite list_insert_insert_eq.
  rewrite list_lookup_insert_eq by done. simpl.
  rewrite list_insert_insert_eq.
  eexists. split; [done|]. simpl. done.
Qed.

Lemma run_each_alone (ts : list nat) : ∀ st : sessions_state F,
  NoDup ts → (∀ t, t ∈ ts → sessions st !! t = Some fresh) →
  _client_counter (server st) = 0 →
  ∃ st', run (flat_map (λ t, replicate 5 t) ts) st = Some st'
    ∧ _client_counter (server st') = 0
    ∧ completed_clients (_dispatcher (server st'))
      = completed_clients (_dispatcher (server st)) + Z.of_nat (length ts)
    ∧ length (sessions st') = length (sessions st)
    ∧ (∀ t, t ∈ ts → sessions st' !! t = Some (ended_session 1))
    ∧ (∀ t, t ∉ ts → sessions st' !! t = sessions st !! t).
Proof.
  induction ts as [|t ts IH]; intros st Hnd Hfresh Hc.
  - exists st. simpl. split; [done|]. split; [done|]. split; [lia|].
    split; [done|]. split; [|done]. by intros t ?%elem_of_nil.
  - apply NoDup_cons in Hnd as [Hnotin Hnd].
    destruct (run_alone t st) as (st1 & Hrun1 & Hs1 & Hc1 & Hd1 & _);
      [apply Hfresh; by left|done|].
    assert (Hlen : (t < length (sessions st))%nat).
    { eapply lookup_lt_Some. apply Hfresh. by left. }
    destruct (IH st1 Hnd) as (st2 & Hrun2 & Hc2 & Hd2 & Hl2 & Hin2 & Hout2);
      [|done|].
    { intros t' Ht'. rewrite Hs1, list_lookup_insert_ne.
      - apply Hfresh. by right.
      - intros ->. done. }
    exists st2. change (flat_map _ (t :: ts))
      with (replicate 5 t ++ flat_map (λ t, replicate 5 t) ts).
    rewrite run_app, Hrun1. simpl. split; [done|]. split; [done|].
    split; [rewrite Hd2, Hd1; simpl length; lia|].
    split; [by rewrite Hl2, Hs1, length_insert|]. split.
    + intros t' [->|Ht']%elem_of_cons; [|by apply Hin2].
      rewrite (Hout2 t Hnotin), Hs1. by rewrite list_lookup_insert_eq.
    + intros t' Ht'. apply not_elem_of_cons in Ht' as [Hne Ht'].
      rewrite (Hout2 t' Ht'), Hs1. by rewrite list_lookup_insert_ne.
Qed.

(** Sessions 0 and 1 overlapping, while no other session is open. *)
Lemma run_overlapping (st : sessions_state F) :
  sessions st !! 0%nat = Some fresh → sessions st !! 1%nat = Some fresh →
  _client_counter (server st) = 0 →
  ∃ st', run [0; 0; 1; 1; 0; 0; 1; 1; 1; 0]%nat st = Some st'
    ∧ sessions st'
      = <[1%nat := ended_session 2]>
          (<[0%nat := {| remaining := []; current := 1; client_id := Some 1 |}]>
             (sessions st))
    ∧ _client_counter (server st') = 0
    ∧ completed_clients (_dispatcher (server st'))
      = completed_clients (_dispatcher (server st)) + 2
    ∧ active_clients (_dispatcher (server st')) = 1.
Proof.
  intros H0 H1 Hc. destruct st as [[disp counter] l]. simpl in *. subst counter.
  destruct l as [|s0 [|s1 l]]; try done.
  injection H0 as ->. injection H1 as ->.
  eexists. split; [reflexivity|]. simpl. split; [done|]. split; [done|].
  split; [lia|done].
Qed.

(** X20: [active_clients] can stay wrong for good.  For any number
    [n >= 2] of sessions there is an interleaving of their blocks after
    which every session has ended, [_client_counter] is 0 and
    [completed_clients] is [n], and yet [active_clients] is 1: the last
    [set_active_clients] to run stores a count that was read before
    another session left. *)
Theorem active_clients_stale (n : nat) :
  (2 ≤ n)%nat →
  ∃ st : sessions_state F,
    run (overlapping_schedule n) (start n) = Some st
    ∧ Forall (λ ss, has_ended ss = true) (sessions st)
    ∧ _client_counter (server st) = 0
    ∧ completed_clients (_dispatcher (server st)) = Z.of_nat n
    ∧ active_clients (_dispatcher (server st)) = 1.
Proof.
  intros Hn. unfold overlapping_schedule.
  assert (Hstart : ∀ t, (t < n)%nat → sessions (start n) !! t = Some fresh).
  { intros t Ht. simpl. by rewrite lookup_replicate_2. }
  destruct (run_each_alone (seq 2 (n - 2)) (start n))
    as (st1 & Hrun1 & Hc1 & Hd1 & Hl1 & Hin1 & Hout1).
  { apply NoDup_seq. }
  { intros t Ht%elem_of_seq. apply Hstart. lia. }
  { done. }
  destruct (run_overlapping st1) as (st2 & Hrun2 & Hs2 & Hc2 & Hd2 & Ha2).
  { rewrite Hout1; [apply Hstart; lia|]. intros Ht%elem_of_seq. lia. }
  { rewrite Hout1; [apply Hstart; lia|]. intros Ht%elem_of_seq. lia. }
  { done. }
  exists st2. rewrite run_app, Hrun1. simpl. split; [done|].
  assert (Hlen1 : length (sessions st1) = n).
  { rewrite Hl1. simpl. apply length_replicate. }
  split; [|split; [done|split; [|done]]].
  - apply Forall_lookup. intros i ss Hi. rewrite Hs2 in Hi.
    destruct (decide (i = 1%nat)) as [->|Hne1].
    { rewrite list_lookup_insert_eq in Hi
        by (rewrite length_insert; lia). by injection Hi as <-. }
    rewrite list_lookup_insert_ne in Hi by done.
    destruct (decide (i = 0%nat)) as [->|Hne0].
    { rewrite list_lookup_insert_eq in Hi by lia. by injection Hi as <-. }
    rewrite list_lookup_insert_ne in Hi by done.
    assert (Hlt : (i < n)%nat).
    { rewrite <- Hlen1. by eapply lookup_lt_Some. }
    rewrite Hin1 in Hi by (apply elem_of_seq; lia). by injection Hi as <-.
  - rewrite Hd2, Hd1, length_seq. simpl. lia.
Qed.

End Registering.

Section RegisteringExample.
Import Server Registration Binary64.


Lemma three_sessions_stale :
  (2 ≤ 3)%nat
  ∧ ∃ st : sessions_state float,
      run (overlapping_schedule 3) (start 3) = Some st
      ∧ Forall (λ ss, has_ended ss = true) (sessions st)
      ∧ _client_counter (server st) = 0
      ∧ completed_clients (_dispatcher (server st)) = Z.of_nat 3
      ∧ active_clients (_dispatcher (server st)) = 1.
Proof.
  split; [lia|]. apply (active_clients_stale 3). lia.
Defined.

End RegisteringExample.

(** ** The request path on concrete requests *)

Section RequestExamples.
Import Protocol Server Responses Handler Client Binary64.

Lemma wire_round_trip_prime_17 :
  @json_loads MiniJson.lib (@to_wire MiniJson.lib prime_17_message)
  = Some (wire_payload prime_17_message)
  ∧ @from_wire MiniJson.lib MiniJson.failure MiniJson.ascii_lower
      (@to_wire MiniJson.lib prime_17_message)
    = Ok {| command := @str_lower MiniJson.ascii_lower
                         (command prime_17_message);
            data := data prime_17_message |}
  ∧ (@from_wire MiniJson.lib MiniJson.failure MiniJson.ascii_lower
       (@to_wire MiniJson.lib prime_17_message)
     = Ok prime_17_message
     ↔ @str_lower MiniJson.ascii_lower (command prime_17_message)
       = command prime_17_message).
Proof.
  split; [vm_compute; reflexivity|].
  apply (@wire_round_trip_lowers MiniJson.lib MiniJson.failure
           MiniJson.ascii_lower prime_17_message).
  vm_compute. reflexivity.
Defined.

Lemma listen_unknown_bogus :
  @bytes_decode AsciiText.text
    (@encode_response MiniJson.lib unknown_bogus "error")
  = inl (@encode_response MiniJson.lib unknown_bogus "error")
  ∧ @json_loads MiniJson.lib
      (@encode_response MiniJson.lib unknown_bogus "error")
    = Some (response_object unknown_bogus "error")
  ∧ @listen AsciiText.text MiniJson.lib MiniJson.failure
      (@encode_error MiniJson.lib "unknown command: bogus")
    = Shown (JString "error") (JObject unknown_bogus).
Proof.
  split; [reflexivity|]. split; [vm_compute; reflexivity|].
  apply (@listen_encode_response MiniJson.lib MiniJson.failure
           AsciiText.text unknown_bogus "error");
    [reflexivity | vm_compute; reflexivity].
Defined.

Lemma dispatch_prime_17 :
  command prime_17_lowered = "prime"
  ∧ data prime_17_lowered !! "number" = Some (JInt 17)
  ∧ _dispatch_command 1%float 1.5%float prime_17_lowered new_stats
    = Some (Ok {[ "number" := JInt 17;
                  "is_prime" := JBool (bool_decide (Z.prime 17)) ]},
            _update_stats "prime" (f_sub 1.5%float 1%float) new_stats).
Proof.
  split; [reflexivity|]. split; [reflexivity|].
  apply (dispatch_prime_correct 1%float 1.5%float prime_17_lowered 17
           new_stats); reflexivity.
Defined.

Lemma dispatch_from_10_to_1 :
  from_10_to_1 !! "start" = Some (JInt 10)
  ∧ from_10_to_1 !! "end" = Some (JInt 1)
  ∧ let primes :=
      filter Z.prime (seqZ (Z.min 10 1) (Z.max 10 1 + 1 - Z.min 10 1)) in
    let count := Z.of_nat (length primes) in
    let duration := f_sub 1.5%float 1%float in
    _dispatch_command 1%float 1.5%float
      {| command := "range"; data := from_10_to_1 |} new_stats
    = Some (Ok {[ "start" := JInt 10;
                  "end" := JInt 1;
                  "count" := JInt count;
                  "primes" := JArray (JInt <$> take 200 primes);
                  "truncated" := JBool (bool_decide (count > 200));
                  "duration_sec" := JFloat (f_round duration 6) ]},
            _update_stats "range" duration new_stats)
    ∧ _dispatch_command 1%float 1.5%float
        {| command := "count"; data := from_10_to_1 |} new_stats
      = Some (Ok {[ "start" := JInt 10;
                    "end" := JInt 1;
                    "count" := JInt count;
                    "duration_sec" := JFloat (f_round duration 6) ]},
              _update_stats "count" duration new_stats).
Proof.
  split; [reflexivity|]. split; [reflexivity|].
  apply (dispatch_range_count_correct 1%float 1.5%float from_10_to_1 10 1
           new_stats); reflexivity.
Defined.

Lemma client_count_10_1_accepted :
  @parse_user_input AsciiText.text "Count 10 1"
  = Return (Some count_10_1_message)
  ∧ (command count_10_1_message = "stats"
     ∨ counted_command (command count_10_1_message))
  ∧ lower (command count_10_1_message) = command count_10_1_message
  ∧ ∀ started finished (s : ServerStats float),
      ∃ payload s',
        _dispatch_command started finished count_10_1_message s
        = Some (Ok payload, s').
Proof.
  split; [vm_compute; reflexivity|].
  apply (@client_message_accepted binary64 AsciiText.text "Count 10 1"
           count_10_1_message).
  vm_compute. reflexivity.
Defined.

Lemma client_count_10_1_answered :
  @parse_user_input AsciiText.text "Count 10 1"
  = Return (Some count_10_1_message)
  ∧ @client_sends AsciiText.text MiniJson.lib "Count 10 1"
    = Return (Some (@to_wire MiniJson.lib count_10_1_message))
  ∧ ∃ payload s',
      @serve_line binary64 MiniJson.lib MiniJson.failure
        MiniJson.ascii_lower AsciiText.text 1%float 1.5%float
        (@to_wire MiniJson.lib count_10_1_message) new_stats
      = Some (@encode_response MiniJson.lib payload "ok", s')
      ∧ last_error s' = last_error (new_stats (F:=float)).
Proof.
  split; [vm_compute; reflexivity|]. split; [vm_compute; reflexivity|].
  apply (@client_line_answered_ok binary64 MiniJson.lib MiniJson.failure
           MiniJson.ascii_lower AsciiText.text "Count 10 1" (@to_wire MiniJson.lib count_10_1_message)
           count_10_1_message 1%float 1.5%float new_stats);
    [vm_compute; reflexivity | vm_compute; reflexivity | reflexivity
    | vm_compute; reflexivity].
Defined.

(** What the server writes for [Count 10 1], and for a line that is not
    JSON. *)
Example serve_count_10_1 :
  fst <$> @serve_line binary64 MiniJson.lib MiniJson.failure
            MiniJson.ascii_lower AsciiText.text 1%float 1.5%float
            (@to_wire MiniJson.lib count_10_1_message) new_stats
  = Some (@encode_response MiniJson.lib
            {[ "start" := JInt 10; "end" := JInt 1; "count" := JInt 4;
               "duration_sec" := JFloat 0.5 ]} "ok").
Proof. vm_compute. reflexivity. Qed.

Example serve_not_json :
  @serve_line binary64 MiniJson.lib MiniJson.failure MiniJson.ascii_lower
    AsciiText.text 1%float 1.5%float "prime 17" new_stats
  = Some (@encode_error MiniJson.lib "payload is not valid JSON",
          set_last_error "payload is not valid JSON" new_stats).
Proof. vm_compute. reflexivity. Qed.

Example serve_unknown_command :
  fst <$> @serve_line binary64 MiniJson.lib MiniJson.failure
            MiniJson.ascii_lower AsciiText.text 1%float 1.5%float
            (MiniJson.dq "{'command': 'bogus'}") new_stats
  = Some (@encode_error MiniJson.lib "unknown command: bogus").
Proof. vm_compute. reflexivity. Qed.

End RequestExamples.
